(** * sw-helpers: the request wrapper of sw-runtime-caching and the
    expiration plugin of sw-cache-expiration

  A shallow embedding of
    - [packages/sw-runtime-caching/src/lib/request-wrapper.js]
      (class [RequestWrapper]) with the [pluginCallbacks] and
      [defaultCacheName] constants of its [constants.js], and
    - the [Plugin] class of sw-cache-expiration,
  over a model of the service worker platform: Cache Storage, IndexedDB,
  the network and the clock.

  JavaScript numbers are integers ([Z]) with a separate NaN; a promise is
  represented by the way it settles; state is threaded through a state and
  exception monad. *)

From stdpp Require Import gmap strings list fin_maps sorting.
From Stdlib Require Import ZArith Sorted.

(** ** JavaScript values and completions *)

Module JS.

(** The primitive values the numeric options of the expiration plugin are
    exercised with. *)
Inductive JSValue : Type :=
| JSUndefined
| JSNull
| JSBoolean (b : bool)
| JSNumber (n : Z)
| JSNaN.

(** [ToBoolean]: what [if (v)], [!v], [v || w] and [v && w] test. *)
Definition truthy (v : JSValue) : bool :=
  match v with
  | JSBoolean b => b
  | JSNumber n => negb (n =? 0)%Z
  | JSUndefined | JSNull | JSNaN => false
  end.

Definition typeof (v : JSValue) : string :=
  match v with
  | JSUndefined => "undefined"
  | JSNull => "object"
  | JSBoolean _ => "boolean"
  | JSNumber _ | JSNaN => "number"
  end.

(** [ToNumber]; [None] is NaN. *)
Definition ToNumber (v : JSValue) : option Z :=
  match v with
  | JSUndefined | JSNaN => None
  | JSNull => Some 0%Z
  | JSBoolean b => Some (if b then 1 else 0)%Z
  | JSNumber n => Some n
  end.

(** Arithmetic and comparison on numbers, NaN propagating; a comparison
    with NaN is false. *)
Definition mul (a b : option Z) : option Z :=
  match a, b with Some x, Some y => Some (x * y)%Z | _, _ => None end.
Definition add (a b : option Z) : option Z :=
  match a, b with Some x, Some y => Some (x + y)%Z | _, _ => None end.
Definition sub (a b : option Z) : option Z :=
  match a, b with Some x, Some y => Some (x - y)%Z | _, _ => None end.
Definition lt (a b : option Z) : bool :=
  match a, b with Some x, Some y => (x <? y)%Z | _, _ => false end.
Definition gt (a b : option Z) : bool := lt b a.

(** What can be thrown or be the reason of a rejected promise. *)
Inductive JSError : Type :=
| GeneratedError (name : string)   (* built by [ErrorFactory.createError] *)
| AssertionError (what : string)   (* a failed [assert.isInstance] or the like *)
| PlatformError (message : string) (* raised by the platform: TypeError, ... *).

Inductive Completion (A : Type) : Type :=
| Normal (a : A)
| Throw (e : JSError).
Global Arguments Normal {A} a.
Global Arguments Throw {A} e.

(** How a promise settles. *)
Inductive Settled (A : Type) : Type :=
| Fulfilled (a : A)
| Rejected (e : JSError).
Global Arguments Fulfilled {A} a.
Global Arguments Rejected {A} e.

(** An [async] function over a world [W]: it ends normally or throws, and
    leaves a new world either way. *)
Definition Async (W A : Type) : Type := W → Completion A * W.

Definition ret {W A} (a : A) : Async W A := λ w, (Normal a, w).
Definition throw {W A} (e : JSError) : Async W A := λ w, (Throw e, w).
Definition bind {W A B} (m : Async W A) (f : A → Async W B) : Async W B :=
  λ w, match m w with
       | (Normal a, w') => f a w'
       | (Throw e, w') => (Throw e, w')
       end.
(** [try { m } catch (err) { handler(err) }] *)
Definition try_catch {W A} (m : Async W A) (handler : JSError → Async W A)
  : Async W A :=
  λ w, match m w with
       | (Normal a, w') => (Normal a, w')
       | (Throw e, w') => handler e w'
       end.
Definition gets {W A} (f : W → A) : Async W A := λ w, (Normal (f w), w).
Definition modify {W} (f : W → W) : Async W unit := λ w, (Normal tt, f w).
(** The outcome of a call that leaves the world as it is. *)
Definition completes {W A} (c : Completion A) : Async W A := λ w, (c, w).

End JS.
Import JS.

Notation "'let!' x ':=' c 'in' k" := (bind c (λ x, k))
(at level 10, x pattern, c at level 100, k at level 200).
Notation "c ';;;' k" := (bind c (λ _, k))
(at level 100, k at level 200, right associativity).

(** Modelled from the spec: [error-factory.js] is not among the sources. The
  spec calls it structured error construction and names errors by their
  identifier, so [createError] builds the error that carries the identifier
  it is given. *)
Module ErrorFactory.
Definition createError (name : string) : JSError := GeneratedError name.
Definition identifier (e : JSError) : option string :=
  match e with GeneratedError name => Some name | _ => None end.
End ErrorFactory.

(** ** The platform's requests, responses and caches *)

Module Platform.

Record Request : Type := {
  request_url : string;
  request_method : string;
  request_headers : list (string * string);
}.

Record Response : Type := {
  url : string;
  status : Z;
  type : string;                    (* 'basic', 'cors', 'opaque', ... *)
  headers : gmap string string;     (* by lower-case header name *)
  body : string;
}.

(** [response.ok]: the status is in the range 200-299. *)
Definition ok (response : Response) : bool :=
  (200 <=? status response)%Z && (status response <=? 299)%Z.

(** [response.headers.get(name)]: the value, or [null]. *)
Definition headers_get (response : Response) (name : string) : option string :=
  headers response !! name.

(** [response.clone()]: responses are values here, a clone is equal to its
    original. *)
Definition clone (response : Response) : Response := response.

(** Option bags handed through to the platform ([fetchOptions],
    [matchOptions]). *)
Definition Options : Type := list (string * string).

(** The expiration plugin addresses the entries of a cache by URL alone
    ([cache.delete(url)]): for it a named cache is the responses by request
    URL, and Cache Storage the caches by name. *)
Abbreviation Cache := (gmap string Response).
Abbreviation CacheStorage := (gmap string (gmap string Response)).

(** [caches.open(name)] creates the cache when there is none of that name. *)
Definition caches_open (name : string) (storage : CacheStorage) : CacheStorage :=
  match storage !! name with
  | Some _ => storage
  | None => <[name := ∅]> storage
  end.

Definition cache_of (name : string) (storage : CacheStorage) : Cache :=
  default ∅ (storage !! name).

(** [cache.match(url)], [cache.put(url, response)], [cache.delete(url)] on
    the cache called [name]. *)
Definition cache_match (name url : string) (storage : CacheStorage)
  : option Response :=
  cache_of name storage !! url.
Definition cache_put (name url : string) (response : Response)
    (storage : CacheStorage) : CacheStorage :=
  <[name := <[url := response]> (cache_of name storage)]> storage.
Definition cache_delete (name url : string) (storage : CacheStorage)
  : CacheStorage :=
  match storage !! name with
  | Some cache => <[name := delete url cache]> storage
  | None => storage
  end.

(** The request wrapper hands its cache whole Requests and its match
    options ([cache.match(request, this.matchOptions)],
    [cache.put(cacheRequest, newResponse)]), so its caches are kept the way
    the Cache interface keeps them: as the list of the pairs of a Request
    and a Response, in the order they were put. Two things are the
    platform's own and are parameters here: when a Request matches an entry
    under given options (the method, the search part of the URL and the
    [Vary] header enter into it), and which puts are refused (a Request that
    is not a GET, a partial response, a [Vary] of [*], ...). *)
Abbreviation Entries := (list (Request * Response)).
Definition Matching : Type := option Options → Request → Request * Response → bool.
Definition Refusal : Type := Request → Response → option JSError.

Definition storage_open (name : string) (storage : gmap string Entries)
  : gmap string Entries :=
  match storage !! name with
  | Some _ => storage
  | None => <[name := []]> storage
  end.

Definition storage_entries (name : string) (storage : gmap string Entries)
  : Entries :=
  default [] (storage !! name).

(** [cache.match(request, options)] resolves to the response of the first
    entry the request matches, or to [undefined]. *)
Definition entries_match (matching : Matching) (request : Request)
    (options : option Options) (entries : Entries) : option Response :=
  snd <$> List.find (matching options request) entries.

(** A [cache.put(request, response)] that is not refused: the entries the
    request matches, no options given, are removed, and the new pair is
    added at the end. *)
Definition entries_put (matching : Matching) (request : Request)
    (response : Response) (entries : Entries) : Entries :=
  List.filter (λ entry, negb (matching None request entry)) entries ++
  [(request, response)].

Definition storage_put (matching : Matching) (name : string) (request : Request)
    (response : Response) (storage : gmap string Entries) : gmap string Entries :=
  <[name := entries_put matching request response (storage_entries name storage)]>
    storage.

End Platform.
Import Platform.

(** ** sw-cache-expiration: the expiration plugin *)

Module CacheExpiration.

(** Modelled from the spec: the [constants.js] of sw-cache-expiration is not
    among the sources. The spec gives the database name as
    ["sw-cache-expiration-" + cacheName], with one object store of key path
    [url] and one index on [timestamp]. *)
Definition idbName : string := "sw-cache-expiration".

(** An object store of timestamp records [{url, timestamp}], by its key
    path [url]. IndexedDB: the store of each database, by database name. *)
Abbreviation Store := (gmap string Z).
Abbreviation IndexedDB := (gmap string (gmap string Z)).

(** A platform operation that has been asked for, or is still ahead of an
    [async] callback nobody waits for. *)
Inductive Op : Type :=
| OpCacheDelete (cacheName url : string)   (* [cache.delete(url)] *)
| OpStoreDelete (cacheName url : string)   (* the transaction of [store.delete(url)] *).

Record World : Type := {
  caches : gmap string (gmap string Response);
  databases : gmap string (gmap string Z);
  clock : Z;                               (* [Date.now()] *)
  Date_parse : string → option Z;          (* [new Date(s).getTime()], [None] is NaN *)
  pending : list (list Op);                (* promises left behind, each with the
                                              operations it still has to go through *)
}.

Definition set_caches (f : CacheStorage → CacheStorage) (w : World) : World :=
  {| caches := f (caches w); databases := databases w; clock := clock w;
     Date_parse := Date_parse w; pending := pending w |}.
Definition set_databases (f : IndexedDB → IndexedDB) (w : World) : World :=
  {| caches := caches w; databases := f (databases w); clock := clock w;
     Date_parse := Date_parse w; pending := pending w |}.
Definition set_pending (f : list (list Op) → list (list Op)) (w : World) : World :=
  {| caches := caches w; databases := databases w; clock := clock w;
     Date_parse := Date_parse w; pending := f (pending w) |}.

Record Plugin : Type := {
  maxEntries : JSValue;
  maxAgeSeconds : JSValue;
}.

(** [constructor({maxEntries, maxAgeSeconds} = {})]; an option left out is
    [JSUndefined]. *)
Definition constructor (maxEntries maxAgeSeconds : JSValue) : Completion Plugin :=
  if negb (truthy maxEntries || truthy maxAgeSeconds) then
    Throw (ErrorFactory.createError "max-entries-or-age-required")
  else if truthy maxEntries && negb (String.eqb (typeof maxEntries) "number") then
    Throw (ErrorFactory.createError "max-entries-must-be-number")
  else if truthy maxAgeSeconds && negb (String.eqb (typeof maxAgeSeconds) "number") then
    Throw (ErrorFactory.createError "max-age-seconds-must-be-number")
  else
    Normal {| maxEntries := maxEntries; maxAgeSeconds := maxAgeSeconds |}.

Definition idbId (cacheName : string) : string := idbName +:+ "-" +:+ cacheName.

(** [getDB({cacheName})]: opening the database creates it, with its empty
    store, when it does not exist. The handle is the database name; the
    [_dbs] memo only saves the reopening, which changes nothing here. *)
Definition getDB (cacheName : string) : Async World string :=
  modify (set_databases (λ dbs,
    match dbs !! idbId cacheName with
    | Some _ => dbs
    | None => <[idbId cacheName := ∅]> dbs
    end)) ;;;
  ret (idbId cacheName).

(** [getCache({cacheName})]; the handle is the cache name. *)
Definition getCache (cacheName : string) : Async World string :=
  modify (set_caches (caches_open cacheName)) ;;;
  ret cacheName.

Definition store_of (db : string) (w : World) : Store :=
  default ∅ (databases w !! db).

(** [isResponseFresh({cachedResponse, now})] *)
Definition isResponseFresh (this : Plugin) (cachedResponse : option Response)
    (now : option Z) : Async World bool :=
  match cachedResponse with
  | Some response =>
      if truthy (maxAgeSeconds this) then
        match headers_get response "date" with
        | Some dateHeader =>
            if negb (String.eqb dateHeader "") then
              let! now := match now with
                          | None => gets clock
                          | Some now => ret now
                          end in
              let! parsedDate := gets (λ w, Date_parse w dateHeader) in
              if JS.lt (JS.add parsedDate
                          (JS.mul (ToNumber (maxAgeSeconds this)) (Some 1000%Z)))
                       (Some now)
              then ret false
              else ret true
            else ret true
        | None => ret true
        end
      else ret true
  | None => ret true
  end.

(** [cacheWillMatch({cachedResponse, now})]; [None] is [null]. *)
Definition cacheWillMatch (this : Plugin) (cachedResponse : option Response)
    (now : option Z) : Async World (option Response) :=
  let! fresh := isResponseFresh this cachedResponse now in
  if fresh then ret cachedResponse else ret None.

(** [updateTimestamp({cacheName, url, now})] *)
Definition updateTimestamp (this : Plugin) (cacheName url : string)
    (now : option Z) : Async World unit :=
  let! now := match now with
              | None => gets clock
              | Some now => ret now
              end in
  let! db := getDB cacheName in
  modify (set_databases (λ dbs, <[db := <[url := now]> (default ∅ (dbs !! db))]> dbs)).

(** The [timestamp] index of a store: its records [(url, timestamp)] by
    ascending timestamp, records of one timestamp by ascending key. *)
Definition index_le (r1 r2 : string * Z) : bool :=
  (r1.2 <? r2.2)%Z || ((r1.2 =? r2.2)%Z && String.leb r1.1 r2.1).

Fixpoint index_insert (r : string * Z) (l : list (string * Z)) : list (string * Z) :=
  match l with
  | [] => [r]
  | r' :: l' => if index_le r r' then r :: r' :: l' else r' :: index_insert r l'
  end.

Definition timestampIndex (store : Store) : list (string * Z) :=
  foldr index_insert [] (map_to_list store).

(** [index.iterateCursor(callback)]: the callback gets the cursor on each
    record in turn for as long as it calls [cursor.continue()] (the
    returned boolean), and [null] after the last record. *)
Fixpoint iterateCursor {A} (callback : option (string * Z) → A → A * bool)
    (index : list (string * Z)) (acc : A) : A :=
  match index with
  | [] => (callback None acc).1
  | record :: rest =>
      let '(acc', continue) := callback (Some record) acc in
      if continue then iterateCursor callback rest acc' else acc'
  end.

(** [findOldEntries({cacheName, now})] *)
Definition findOldEntries (this : Plugin) (cacheName : string) (now : Z)
  : Async World (list string) :=
  let expireOlderThan :=
    JS.sub (Some now) (JS.mul (ToNumber (maxAgeSeconds this)) (Some 1000%Z)) in
  let! db := getDB cacheName in
  let! store := gets (store_of db) in
  ret (iterateCursor
         (λ cursor urls,
            match cursor with
            | None => (urls, false)
            | Some (url, timestamp) =>
                (if JS.lt (Some timestamp) expireOlderThan
                 then urls ++ [url] else urls,
                 true)
            end)
         (timestampIndex store) []).

(** [findExtraEntries({cacheName})] *)
Definition findExtraEntries (this : Plugin) (cacheName : string)
  : Async World (list string) :=
  let! db := getDB cacheName in
  let! store := gets (store_of db) in
  let initialCount := Z.of_nat (size store) in
  if JS.gt (Some initialCount) (ToNumber (maxEntries this)) then
    ret (iterateCursor
           (λ cursor urls,
              match cursor with
              | None => (urls, false)
              | Some (url, _) =>
                  let urls := urls ++ [url] in
                  (urls,
                   JS.gt (Some (initialCount - Z.of_nat (length urls))%Z)
                         (ToNumber (maxEntries this)))
              end)
           (timestampIndex store) [])
  else ret [].

(** [[...new Set(urls)]]: the first occurrence of each URL, in order. *)
Fixpoint Set_values (seen urls : list string) : list string :=
  match urls with
  | [] => []
  | url :: rest =>
      if bool_decide (url ∈ seen) then Set_values seen rest
      else url :: Set_values (url :: seen) rest
  end.

(** [deleteFromCacheAndIDB({cacheName, urls})]. [urls.forEach] calls the
    [async] callback on every URL and drops the promise each call returns;
    a call runs up to its first [await], so it has asked for
    [cache.delete(url)] and has the deletion from the store still ahead.
    [forEach] itself returns [undefined], which is what the method awaits. *)
Definition deleteFromCacheAndIDB (this : Plugin) (cacheName : string)
    (urls : list string) : Async World unit :=
  if (0 <? length urls)%nat then
    let! cache := getCache cacheName in
    let! db := getDB cacheName in
    modify (set_pending (λ promises,
      promises ++ map (λ url, [OpCacheDelete cache url; OpStoreDelete cacheName url]) urls))
  else ret tt.

(** [expireEntries({cacheName, now})] *)
Definition expireEntries (this : Plugin) (cacheName : string) (now : option Z)
  : Async World (list string) :=
  let! now := match now with
              | None => gets clock
              | Some now => ret now
              end in
  let! oldEntries := if truthy (maxAgeSeconds this)
                     then findOldEntries this cacheName now
                     else ret [] in
  let! extraEntries := if truthy (maxEntries this)
                       then findExtraEntries this cacheName
                       else ret [] in
  let urls := Set_values [] (oldEntries ++ extraEntries) in
  deleteFromCacheAndIDB this cacheName urls ;;;
  ret urls.

(** The platform going through an operation: the promise of the operation
    settles once the entry is gone. *)
Definition perform (op : Op) (w : World) : World :=
  match op with
  | OpCacheDelete cacheName url => set_caches (cache_delete cacheName url) w
  | OpStoreDelete cacheName url =>
      set_databases (λ dbs,
        match dbs !! idbId cacheName with
        | Some store => <[idbId cacheName := delete url store]> dbs
        | None => dbs
        end) w
  end.

(** The event loop taking the promises left behind to their end, the
    operations in the order [schedule]. *)
Definition settle (schedule : list Op) (w : World) : World :=
  set_pending (λ _, []) (foldl (λ w op, perform op w) w schedule).

(** The responses and timestamp records a world holds. *)
Definition response_at (cacheName url : string) (w : World) : option Response :=
  cache_match cacheName url (caches w).
Definition timestamp_at (cacheName url : string) (w : World) : option Z :=
  store_of (idbId cacheName) w !! url.

(** [cacheDidUpdate({cacheName, newResponse, now})]. The method itself
    returns at once; this is the chain of promises it starts,
    [updateTimestamp(...).then(() => { expireEntries(...) })], taken up to
    where the promise of [expireEntries] resolves. *)
Definition cacheDidUpdate (this : Plugin) (cacheName : string)
    (newResponse : Response) (now : option Z) : Async World unit :=
  let! now := match now with
              | None => gets clock
              | Some now => ret now
              end in
  updateTimestamp this cacheName (url newResponse) (Some now) ;;;
  expireEntries this cacheName (Some now) ;;;
  ret tt.

End CacheExpiration.

(** ** sw-runtime-caching: the request wrapper *)

Module RuntimeCaching.

(** [constants.js]: the default cache name is the prefix, followed by the
    scope of the registration when the worker has one. *)
Definition defaultCacheName (registration_scope : option string) : string :=
  match registration_scope with
  | Some scope => "sw-runtime-caching" +:+ "-" +:+ scope
  | None => "sw-runtime-caching"
  end.

(** [constants.js]: the names of the callbacks the wrapper looks for, in
    this order. *)
Definition pluginCallbacks : list string :=
  ["cacheDidUpdate"; "cacheWillMatch"; "cacheWillUpdate"; "fetchDidFail";
   "requestWillFetch"].

(** What a [requestWillFetch] callback hands back: something that is not a
    promise, or a promise that rejects, or one that resolves, to a Request
    or ([None]) to something else. A callback that throws has the effect
    on [fetch] of one that hands back a promise rejected with what it
    throws. *)
Inductive Returned : Type :=
| NotAPromise
| PromiseOf (settles : Settled (option Request)).

(** An observer: a callback whose result the wrapper does not use. A call
    of it shows in the trace under the name given here, and ends normally
    or throws. *)
Record Observer (A : Type) : Type := {
  observer_name : string;
  observer_throws : A → option JSError;
}.
Global Arguments observer_name {A} _.
Global Arguments observer_throws {A} _ _.

(** What a [cacheDidUpdate] callback is called with:
    [{cacheName, oldResponse, newResponse}]. *)
Definition Update : Type := string * option Response * Response.

(** A plugin: an object on which each of the five callbacks is a function
    or is not there. The wrapper calls a callback and goes on with what it
    returns, or throws what it throws; what a callback starts on the
    platform comes about after the call and is not part of it. *)
Record Plugin : Type := {
  cacheDidUpdate : option (Observer Update);
  cacheWillMatch : option (option Response → Completion (option Response));
  cacheWillUpdate : option (Request → Response → Completion bool);
  fetchDidFail : option (Observer Request);
  requestWillFetch : option (Request → Returned);
}.

(** [this.pluginCallbacks]: for each callback name [undefined] ([None]) or
    the array of the bound functions. *)
Record PluginCallbacks : Type := {
  on_cacheDidUpdate : option (list (Observer Update));
  on_cacheWillMatch : option (list (option Response → Completion (option Response)));
  on_cacheWillUpdate : option (list (Request → Response → Completion bool));
  on_fetchDidFail : option (list (Observer Request));
  on_requestWillFetch : option (list (Request → Returned));
}.

Record RequestWrapper : Type := {
  cacheName : string;
  fetchOptions : option Options;
  matchOptions : option Options;
  callbacks : PluginCallbacks;
}.

(** The body of the loop over the callback names for one name: an array is
    made for the name when there is none yet, and the function is pushed. *)
Definition push {A} (registered : option (list A)) (callback : option A)
  : option (list A) :=
  match callback with
  | Some f => Some (default [] registered ++ [f])
  | None => registered
  end.

(** The body of [plugins.forEach]. *)
Definition register (registry : PluginCallbacks) (plugin : Plugin) : PluginCallbacks :=
  {| on_cacheDidUpdate := push (on_cacheDidUpdate registry) (cacheDidUpdate plugin);
     on_cacheWillMatch := push (on_cacheWillMatch registry) (cacheWillMatch plugin);
     on_cacheWillUpdate := push (on_cacheWillUpdate registry) (cacheWillUpdate plugin);
     on_fetchDidFail := push (on_fetchDidFail registry) (fetchDidFail plugin);
     on_requestWillFetch := push (on_requestWillFetch registry) (requestWillFetch plugin) |}.

Definition no_callbacks : PluginCallbacks :=
  {| on_cacheDidUpdate := None; on_cacheWillMatch := None;
     on_cacheWillUpdate := None; on_fetchDidFail := None;
     on_requestWillFetch := None |}.

(** [if (registered) { if (registered.length !== 1) ... }] *)
Definition multiple {A} (registered : option (list A)) : bool :=
  match registered with
  | Some registered => negb (length registered =? 1)%nat
  | None => false
  end.

(** [constructor({cacheName, plugins, fetchOptions, matchOptions} = {})];
    an option left out is [None]. An empty cache name is falsy. *)
Definition constructor (registration_scope : option string)
    (cacheName : option string) (plugins : option (list Plugin))
    (fetchOptions matchOptions : option Options) : Completion RequestWrapper :=
  let name := match cacheName with
              | Some name => if String.eqb name "" then defaultCacheName registration_scope
                             else name
              | None => defaultCacheName registration_scope
              end in
  let registry := match plugins with
                  | Some plugins => foldl register no_callbacks plugins
                  | None => no_callbacks
                  end in
  if multiple (on_cacheWillUpdate registry) then
    Throw (ErrorFactory.createError "multiple-cache-will-update-plugins")
  else if multiple (on_cacheWillMatch registry) then
    Throw (ErrorFactory.createError "multiple-cache-will-match-plugins")
  else
    Normal {| cacheName := name; fetchOptions := fetchOptions;
              matchOptions := matchOptions; callbacks := registry |}.

(** What the wrapper does to its surroundings, in order: the calls it makes
    of the callbacks and of the platform. *)
Inductive Event : Type :=
| CallRequestWillFetch (request : Request)
| NetworkFetch (request : Request) (init : option Options)
| CallFetchDidFail (callback : string) (request : Request)
| CacheMatch (cacheName : string) (request : Request) (options : option Options)
| CallCacheWillMatch (cachedResponse : option Response)
| CallCacheWillUpdate (request : Request) (response : Response)
| CachePut (cacheName : string) (request : Request) (response : Response)
| CallCacheDidUpdate (callback cacheName : string)
    (oldResponse : option Response) (newResponse : Response).

(** A promise nobody waits for: the [cachingComplete] of a [fetchAndCache]
    called without [waitOnCache]. *)
Inductive Task : Type :=
| CachingComplete (this : RequestWrapper) (request : Request)
    (cacheKey : option Request) (response newResponse : Response).

Record World : Type := {
  caches : gmap string Entries;
  cache_matches : Matching;                 (* when a Request matches an entry *)
  cache_refuses : Refusal;                  (* the puts that are refused *)
  network : Request → Settled Response;     (* how [fetch(request)] settles *)
  trace : list Event;
  pending : list Task;
}.

Definition set_caches (f : gmap string Entries → gmap string Entries) (w : World)
  : World :=
  {| caches := f (caches w); cache_matches := cache_matches w;
     cache_refuses := cache_refuses w; network := network w; trace := trace w;
     pending := pending w |}.
Definition log (e : Event) : Async World unit :=
  modify (λ w, {| caches := caches w; cache_matches := cache_matches w;
                  cache_refuses := cache_refuses w; network := network w;
                  trace := trace w ++ [e]; pending := pending w |}).
Definition spawn (task : Task) : Async World unit :=
  modify (λ w, {| caches := caches w; cache_matches := cache_matches w;
                  cache_refuses := cache_refuses w; network := network w;
                  trace := trace w; pending := pending w ++ [task] |}).

(** [for (let x of xs) { body(x) }] *)
Fixpoint for_of {A} (xs : list A) (body : A → Async World unit) : Async World unit :=
  match xs with
  | [] => ret tt
  | x :: rest => body x ;;; for_of rest body
  end.

(** [registered[0](...)]: calling the [undefined] at index 0 of an empty
    array is a TypeError. *)
Definition first {A} (registered : list A) : Async World A :=
  match registered with
  | callback :: _ => ret callback
  | [] => throw (PlatformError "TypeError: undefined is not a function")
  end.

(** [callback(argument)] for an observer. *)
Definition call {A} (callback : Observer A) (argument : A) : Async World unit :=
  match observer_throws callback argument with
  | Some err => throw err
  | None => ret tt
  end.

(** [getCache()]; the handle is the cache name, and the [_cache] memo only
    saves the reopening. *)
Definition getCache (this : RequestWrapper) : Async World string :=
  modify (set_caches (storage_open (cacheName this))) ;;;
  ret (cacheName this).

(** [match({request})] *)
Definition match_ (this : RequestWrapper) (request : Request)
  : Async World (option Response) :=
  let! cache := getCache this in
  log (CacheMatch cache request (matchOptions this)) ;;;
  let! cachedResponse :=
    gets (λ w, entries_match (cache_matches w) request (matchOptions this)
                 (storage_entries cache (caches w))) in
  match on_cacheWillMatch (callbacks this) with
  | Some registered =>
      let! callback := first registered in
      log (CallCacheWillMatch cachedResponse) ;;;
      completes (callback cachedResponse)
  | None => ret cachedResponse
  end.

(** The loop over the [requestWillFetch] callbacks; [request] is
    reassigned on every turn. *)
Fixpoint requestWillFetch_loop (registered : list (Request → Returned))
    (request : Request) : Async World Request :=
  match registered with
  | [] => ret request
  | callback :: rest =>
      log (CallRequestWillFetch request) ;;;
      match callback request with
      | NotAPromise => throw (AssertionError "returnedPromise")
      | PromiseOf (Rejected reason) => throw reason
      | PromiseOf (Fulfilled None) => throw (AssertionError "returnedRequest")
      | PromiseOf (Fulfilled (Some returnedRequest)) =>
          requestWillFetch_loop rest returnedRequest
      end
  end.

(** The platform's [fetch(request, init)]. *)
Definition platform_fetch (request : Request) (init : option Options)
  : Async World Response :=
  log (NetworkFetch request init) ;;;
  let! settles := gets (λ w, network w request) in
  match settles with
  | Fulfilled response => ret response
  | Rejected err => throw err
  end.

(** [fetch({request})]. A [fetchDidFail] callback that throws leaves the
    [catch] block: the callbacks after it are not called, and what it
    throws takes the place of [err]. *)
Definition fetch (this : RequestWrapper) (request : Request) : Async World Response :=
  let! request := match on_requestWillFetch (callbacks this) with
                  | Some registered => requestWillFetch_loop registered request
                  | None => ret request
                  end in
  try_catch (platform_fetch request (fetchOptions this))
    (λ err,
       match on_fetchDidFail (callbacks this) with
       | Some registered =>
           for_of registered
             (λ callback,
                log (CallFetchDidFail (observer_name callback) request) ;;;
                call callback request)
       | None => ret tt
       end ;;;
       throw err).

(** The function given to [this.getCache().then] in [fetchAndCache]. It
    throws what [match] throws and what [cache.put] is refused with, and
    what a [cacheDidUpdate] callback throws. *)
Definition cachingComplete (this : RequestWrapper) (request : Request)
    (cacheKey : option Request) (response newResponse : Response)
  : Async World unit :=
  let! cache := getCache this in
  let! oldResponse :=
    if negb (String.eqb (type response) "opaque")
       && bool_decide (is_Some (on_cacheDidUpdate (callbacks this)))
    then match_ this request
    else ret None in
  let cacheRequest := default request cacheKey in
  log (CachePut cache cacheRequest newResponse) ;;;
  let! refused := gets (λ w, cache_refuses w cacheRequest newResponse) in
  match refused with
  | Some err => throw err
  | None =>
      modify (λ w, set_caches
                     (storage_put (cache_matches w) cache cacheRequest newResponse)
                     w) ;;;
      for_of (default [] (on_cacheDidUpdate (callbacks this)))
        (λ callback,
           log (CallCacheDidUpdate (observer_name callback) (cacheName this)
                  oldResponse newResponse) ;;;
           call callback (cacheName this, oldResponse, newResponse))
  end.

(** The cacheability test of [fetchAndCache]: [response.ok] unless a
    [cacheWillUpdate] callback is registered. *)
Definition cacheable (this : RequestWrapper) (request : Request)
    (response : Response) : Async World bool :=
  match on_cacheWillUpdate (callbacks this) with
  | Some registered =>
      let! callback := first registered in
      log (CallCacheWillUpdate request response) ;;;
      completes (callback request response)
  | None => ret (ok response)
  end.

(** [fetchAndCache({request, waitOnCache, cacheKey})]. With [waitOnCache]
    the call goes through [cachingComplete] before it returns and throws
    what that throws; without, [cachingComplete] is left in flight. *)
Definition fetchAndCache (this : RequestWrapper) (request : Request)
    (waitOnCache : bool) (cacheKey : option Request) : Async World Response :=
  let! response := fetch this request in
  let! cacheable := cacheable this request response in
  if cacheable then
    let newResponse := clone response in
    (if waitOnCache
     then cachingComplete this request cacheKey response newResponse
     else spawn (CachingComplete this request cacheKey response newResponse)) ;;;
    ret response
  else if negb cacheable && waitOnCache then
    throw (ErrorFactory.createError "invalid-reponse-for-caching")
  else ret response.

(** A promise left in flight being run by the event loop, from the world
    of that moment; its rejection goes unhandled. *)
Definition run (task : Task) : Async World unit :=
  match task with
  | CachingComplete this request cacheKey response newResponse =>
      cachingComplete this request cacheKey response newResponse
  end.

End RuntimeCaching.

(** ** sw-cli: the command line *)

Module Cli.

(** What [logHelper] is asked to print. *)
Inductive Output : Type :=
| Info (text : string)
| Error (text : string).

(** How a promise of the command line settles; what it settles with is
    never looked at. *)
Inductive Outcome : Type :=
| Resolves
| Rejects.

(** What the command line finds around it: the text of [cli-help.txt] (or
    what reading it throws), the version in [package.json], and how the
    promise of [_generateSW], which asks its questions and calls
    [swBuild.generateSW], settles. *)
Record Environment : Type := {
  help_file : Completion string;
  pkg_version : string;
  generateSW : Outcome;
}.

(** The arguments as [minimist] hands them over: the ones that are no
    flags ([_]) and the flags that are looked at. *)
Record CliArgs : Type := {
  positional : list string;
  h : JSValue;
  help : JSValue;
  v : JSValue;
  version : JSValue;
}.

Definition info (text : string) : Async (list Output) unit :=
  modify (λ printed, printed ++ [Info text]).
Definition error (text : string) : Async (list Output) unit :=
  modify (λ printed, printed ++ [Error text]).

(** [printHelpText()] *)
Definition printHelpText (env : Environment) : Async (list Output) unit :=
  match help_file env with
  | Normal helpText => info helpText
  | Throw e => throw e
  end.

(** [handleFlag(flags)] *)
Definition handleFlag (env : Environment) (flags : CliArgs)
  : Async (list Output) Outcome :=
  let! handled := if truthy (h flags) || truthy (help flags)
                  then printHelpText env ;;; ret true
                  else ret false in
  let! handled := if truthy (v flags) || truthy (version flags)
                  then info (pkg_version env) ;;; ret true
                  else ret handled in
  if handled then ret Resolves
  else printHelpText env ;;; ret Rejects.

(** [handleCommand(command, args, flags)] *)
Definition handleCommand (env : Environment) (command : string)
    (args : list string) (flags : CliArgs) : Async (list Output) Outcome :=
  if String.eqb command "generate-sw" then ret (generateSW env)
  else if String.eqb command "build-file-manifest" then
    error "TODO: Implement." ;;; ret Rejects
  else
    error ("Invlaid command given '" +:+ command +:+ "'") ;;; ret Rejects.

(** [argv(argv)], from the parsed arguments on; the result is the code
    [process.exit] is called with. *)
Definition argv (env : Environment) (cliArgs : CliArgs) : Async (list Output) Z :=
  let! outcome := match positional cliArgs with
                  | command :: args => handleCommand env command args cliArgs
                  | [] => handleFlag env cliArgs
                  end in
  match outcome with
  | Resolves => ret 0%Z
  | Rejects => ret 1%Z
  end.

End Cli.

(** ** sw-build: writing the file manifest *)

Module WriteFileManifest.

(** The values a caller can hand to [writeFileManifest]. *)
#[warnings="-register-all"]
Inductive Value : Type :=
| VUndefined
| VNull
| VBoolean (b : bool)
| VNumber (n : Z)
| VString (s : string)
| VObject (url : Value)     (* an object that is no array, with its [url] property *)
| VArray (items : list Value).

Definition truthy (value : Value) : bool :=
  match value with
  | VUndefined | VNull => false
  | VBoolean b => b
  | VNumber n => negb (n =? 0)%Z
  | VString s => negb (String.eqb s "")
  | VObject _ | VArray _ => true
  end.

Definition typeof (value : Value) : string :=
  match value with
  | VUndefined => "undefined"
  | VBoolean _ => "boolean"
  | VNumber _ => "number"
  | VString _ => "string"
  | VNull | VObject _ | VArray _ => "object"
  end.

(** [entry.url] of an entry whose [typeof] is ['object'] and that is not
    [null]; an array has no such property. *)
Definition url_of (entry : Value) : Value :=
  match entry with
  | VObject url => url
  | _ => VUndefined
  end.

(** What happens to the file system, in order. *)
Inductive FsOp : Type :=
| Mkdirp (directory : string)
| ReadFile (path : string)
| WriteFile (path content : string).

(** What [writeFileManifest] finds around it: the table of messages of
    [errors.js], [path.dirname], the path of the template, and what
    [mkdirp], [fs.readFile], the lodash template and [fs.writeFile] come
    to; a failure is the message of its error. *)
Record Environment : Type := {
  errors : string → string;
  dirname : string → string;
  templatePath : string;
  mkdirp : string → option string;
  readFile : string → string + string;
  template : string → list Value → string + string;
  writeFile : string → string → option string;
}.

(** The loop over the entries: the error of the first entry that is
    neither a string nor an object with a truthy [url]. *)
Fixpoint check_entries (env : Environment) (entries : list Value) : option string :=
  match entries with
  | [] => None
  | entry :: rest =>
      if String.eqb (typeof entry) "string" then check_entries env rest
      else if String.eqb (typeof entry) "object" then
        if negb (truthy entry) || negb (truthy (url_of entry))
        then Some (errors env "invalid-manifest-entries")
        else check_entries env rest
      else Some (errors env "invalid-manifest-entries")
  end.

(** [writeFileManifest(manifestFilePath, manifestEntries)]: what was done
    to the file system, and either nothing (the promise resolves) or the
    message of the error the promise rejects with. *)
Definition writeFileManifest (env : Environment)
    (manifestFilePath manifestEntries : Value) : list FsOp * option string :=
  match manifestFilePath with
  | VString path =>
      if negb (truthy manifestFilePath) then
        ([], Some (errors env "invalid-manifest-path"))
      else
        match manifestEntries with
        | VArray entries =>
            match check_entries env entries with
            | Some message => ([], Some message)
            | None =>
                match mkdirp env (dirname env path) with
                | Some message =>
                    ([Mkdirp (dirname env path)],
                     Some (errors env "unable-to-make-manifest-directory"
                           +:+ " '" +:+ message +:+ "'"))
                | None =>
                    match readFile env (templatePath env) with
                    | inr message =>
                        ([Mkdirp (dirname env path); ReadFile (templatePath env)],
                         Some (errors env "read-manifest-template-failure"
                               +:+ " '" +:+ message +:+ "'"))
                    | inl templateString =>
                        match template env templateString entries with
                        | inr message =>
                            ([Mkdirp (dirname env path); ReadFile (templatePath env)],
                             Some (errors env "populating-manifest-tmpl-failed"
                                   +:+ " '" +:+ message +:+ "'"))
                        | inl populatedTemplate =>
                            ([Mkdirp (dirname env path); ReadFile (templatePath env);
                              WriteFile path populatedTemplate],
                             match writeFile env path populatedTemplate with
                             | Some message =>
                                 Some (errors env "manifest-file-write-failure"
                                       +:+ " '" +:+ message +:+ "'")
                             | None => None
                             end)
                        end
                    end
                end
            end
        | _ => ([], Some (errors env "invalid-manifest-entries"))
        end
  | _ => ([], Some (errors env "invalid-manifest-path"))
  end.

End WriteFileManifest.

(** * Statements and examples

    The definitions the properties below are stated with, and the plugins,
    wrappers and worlds the code is run on. *)

Section WrapperStatements.
Import RuntimeCaching.

(** The array registered under a name holds the callbacks of that name of
    the plugins, in the order of the plugins; there is no array when no
    plugin has the callback. *)
Definition registered_of {A} (get : Plugin → option A) (plugins : list Plugin)
  : option (list A) :=
  match omap get plugins with
  | [] => None
  | fs => Some fs
  end.

(** A plugin with both transform callbacks, one with an update callback
    only, one with a match callback only. *)
Definition both_transforms : Plugin :=
  {| cacheDidUpdate := None; cacheWillMatch := Some (λ cached, Normal cached);
     cacheWillUpdate := Some (λ _ _, Normal true); fetchDidFail := None;
     requestWillFetch := None |}.

Definition update_only : Plugin :=
  {| cacheDidUpdate := None; cacheWillMatch := None;
     cacheWillUpdate := Some (λ _ _, Normal true); fetchDidFail := None;
     requestWillFetch := None |}.

Definition match_only : Plugin :=
  {| cacheDidUpdate := None; cacheWillMatch := Some (λ cached, Normal cached);
     cacheWillUpdate := None; fetchDidFail := None;
     requestWillFetch := None |}.

(** A [requestWillFetch] callback that resolves to the Request [f request]. *)
Definition resolves (f : Request → Request) : Request → Returned :=
  λ request, PromiseOf (Fulfilled (Some (f request))).

(** The Request each of the rewrites [P1, ..., Pn] is given when each gets
    what the one before it resolved to: [r], [P1 r], [P2 (P1 r)], ... *)
Fixpoint inputs (fs : list (Request → Request)) (request : Request) : list Request :=
  match fs with
  | [] => []
  | f :: rest => request :: inputs rest (f request)
  end.

(** [Pn (... (P1 r))] *)
Definition rewritten (fs : list (Request → Request)) (request : Request) : Request :=
  foldl (λ request f, f request) request fs.

(** The world [w] with the events [events] added to its trace. *)
Definition observed (events : list Event) (w : World) : World :=
  {| caches := caches w; cache_matches := cache_matches w;
     cache_refuses := cache_refuses w; network := network w;
     trace := trace w ++ events; pending := pending w |}.

(** The world [w] with the promise [task] left in flight. *)
Definition in_flight (task : Task) (w : World) : World :=
  {| caches := caches w; cache_matches := cache_matches w;
     cache_refuses := cache_refuses w; network := network w;
     trace := trace w; pending := pending w ++ [task] |}.

(** The observers that a loop over [observers] calls with [argument]: each
    in turn, up to and including the first that throws; and what that one
    throws. *)
Fixpoint called {A} (observers : list (Observer A)) (argument : A)
  : list (Observer A) :=
  match observers with
  | [] => []
  | callback :: rest =>
      callback :: match observer_throws callback argument with
                  | Some _ => []
                  | None => called rest argument
                  end
  end.

Fixpoint thrown {A} (observers : list (Observer A)) (argument : A)
  : option JSError :=
  match observers with
  | [] => None
  | callback :: rest =>
      match observer_throws callback argument with
      | Some err => Some err
      | None => thrown rest argument
      end
  end.

(** Requests, rewrites, plugins, platforms and networks to run the wrapper
    on. *)
Definition GET (url : string) : Request :=
  {| request_url := url; request_method := "GET"; request_headers := [] |}.

Definition POST (url : string) : Request :=
  {| request_url := url; request_method := "POST"; request_headers := [] |}.

Definition with_header (name value : string) (request : Request) : Request :=
  {| request_url := request_url request;
     request_method := request_method request;
     request_headers := request_headers request ++ [(name, value)] |}.

(** An observer that returns, and one that throws. *)
Definition reporting {A} (name : string) : Observer A :=
  {| observer_name := name; observer_throws := λ _, None |}.

Definition failing {A} (name : string) (err : JSError) : Observer A :=
  {| observer_name := name; observer_throws := λ _, Some err |}.

Definition rewriter (f : Request → Request) (observer : option (Observer Request))
  : Plugin :=
  {| cacheDidUpdate := None; cacheWillMatch := None; cacheWillUpdate := None;
     fetchDidFail := observer; requestWillFetch := Some (resolves f) |}.

Definition offline : Request → Settled Response :=
  λ _, Rejected (PlatformError "TypeError: Failed to fetch").

(** A platform on which a GET Request matches the entries stored under its
    URL, whatever the options, and nothing else matches; it refuses a put
    under a Request that is not a GET and the put of a partial response. *)
Definition same_url : Matching :=
  λ _ request entry,
    String.eqb (request_method request) "GET" &&
    String.eqb (request_url request) (request_url entry.1).

Definition get_only : Refusal :=
  λ request response,
    if negb (String.eqb (request_method request) "GET")
    then Some (PlatformError "TypeError: Request method is unsupported")
    else if (status response =? 206)%Z
    then Some (PlatformError "TypeError: Partial response is unsupported")
    else None.

Definition world (caches : gmap string Entries) (network : Request → Settled Response)
  : World :=
  {| caches := caches; cache_matches := same_url; cache_refuses := get_only;
     network := network; trace := []; pending := [] |}.

Definition two_rewriters : list Plugin :=
  [rewriter (with_header "x-first" "1") (Some (reporting "report"));
   rewriter (with_header "x-second" "2") None].

Definition rewriting_wrapper : RequestWrapper :=
  {| cacheName := "sw-runtime-caching"; fetchOptions := None; matchOptions := None;
     callbacks := foldl register no_callbacks two_rewriters |}.

(** The Requests the [fetchDidFail] callbacks were called on. *)
Definition fetchDidFail_requests (events : list Event) : list Request :=
  omap (λ event, match event with
                 | CallFetchDidFail _ request => Some request
                 | _ => None
                 end) events.

(** A computation that leaves the caches, the platform and the promises in
    flight as they are, and only adds to the trace. *)
Definition quiet {A} (m : Async World A) : Prop :=
  ∀ w, ∃ events, (m w).2 = observed events w.

(** Whether [cachingComplete] looks the old response up, and what it then
    hands to the [cacheDidUpdate] callbacks: the outcome of [match], which
    is what [cache.match] finds for the request under the match options of
    the wrapper, put through the [cacheWillMatch] callback when there is
    one. *)
Definition looks_up (this : RequestWrapper) (response : Response) : bool :=
  negb (String.eqb (type response) "opaque")
  && bool_decide (is_Some (on_cacheDidUpdate (callbacks this))).

Definition found_by (this : RequestWrapper) (request : Request) (w : World)
  : option Response :=
  entries_match (cache_matches w) request (matchOptions this)
    (storage_entries (cacheName this) (caches w)).

Definition matched (this : RequestWrapper) (cached : option Response)
  : Completion (option Response) :=
  match on_cacheWillMatch (callbacks this) with
  | Some (transform :: _) => transform cached
  | _ => Normal cached
  end.

Definition lookup_events (this : RequestWrapper) (request : Request)
    (cached : option Response) : list Event :=
  CacheMatch (cacheName this) request (matchOptions this) ::
  match on_cacheWillMatch (callbacks this) with
  | Some _ => [CallCacheWillMatch cached]
  | None => []
  end.

(** The calls of the [cacheDidUpdate] callbacks [observers] after a put. *)
Definition update_events (observers : list (Observer Update)) (cacheName : string)
    (oldResponse : option Response) (newResponse : Response) : list Event :=
  map (λ callback,
         CallCacheDidUpdate (observer_name callback) cacheName oldResponse newResponse)
    (called observers (cacheName, oldResponse, newResponse)).

(** [cachingComplete] from the point where it has the old response, in the
    world [w]: the put, and after a put that is not refused the calls of
    the [cacheDidUpdate] callbacks. *)
Definition put_and_notify (this : RequestWrapper) (key : Request)
    (oldResponse : option Response) (newResponse : Response) (w : World)
  : Completion unit * World :=
  let observers := default [] (on_cacheDidUpdate (callbacks this)) in
  match cache_refuses w key newResponse with
  | Some err => (Throw err, observed [CachePut (cacheName this) key newResponse] w)
  | None =>
      (match thrown observers (cacheName this, oldResponse, newResponse) with
       | Some err => Throw err
       | None => Normal tt
       end,
       observed
         (CachePut (cacheName this) key newResponse ::
          update_events observers (cacheName this) oldResponse newResponse)
         (set_caches (storage_put (cache_matches w) (cacheName this) key newResponse)
            w))
  end.

(** The entries of a cache that a put under [key] leaves where they are:
    those that [key] does not match. *)
Definition kept (w : World) (key : Request) (entries : Entries) : Entries :=
  List.filter (λ entry, negb (cache_matches w None key entry)) entries.

(** What keeps [cachingComplete], run from the world [w], from putting the
    response: the [cacheWillMatch] callback throwing when the old response
    is looked up, or else the platform refusing the put. *)
Definition write_failure (this : RequestWrapper) (request : Request)
    (cacheKey : option Request) (response : Response) (w : World)
  : option JSError :=
  match (if looks_up this response
         then matched this (found_by this request w)
         else Normal None) with
  | Throw err => Some err
  | Normal _ => cache_refuses w (default request cacheKey) response
  end.

(** The promise of the write of a [fetchAndCache]. *)
Definition write_of (this : RequestWrapper) (request : Request)
    (cacheKey : option Request) (response : Response) : Task :=
  CachingComplete this request cacheKey response (clone response).

(** Responses, networks and wrappers to run [fetchAndCache] on. *)
Definition response_of (url : string) (status : Z) (type body : string) : Response :=
  {| url := url; status := status; type := type; headers := ∅; body := body |}.

Definition serving (response : Response) : Request → Settled Response :=
  λ _, Fulfilled response.

Definition plain_wrapper : RequestWrapper :=
  {| cacheName := "sw-runtime-caching"; fetchOptions := None; matchOptions := None;
     callbacks := no_callbacks |}.

Definition not_found : Response := response_of "/a" 404 "basic" "no such page".

Definition found : Response := response_of "/a" 200 "basic" "y".

(** A plugin that takes every response for cacheable and observes the
    updates, a plugin that lets no cached response through, and a cache
    that holds a response for the request. *)
Definition notifier : Plugin :=
  {| cacheDidUpdate := Some (reporting "notify"); cacheWillMatch := None;
     cacheWillUpdate := Some (λ _ _, Normal true); fetchDidFail := None;
     requestWillFetch := None |}.

Definition notifying_wrapper : RequestWrapper :=
  {| cacheName := "images"; fetchOptions := None; matchOptions := None;
     callbacks := foldl register no_callbacks [notifier] |}.

Definition forgetful : Plugin :=
  {| cacheDidUpdate := None; cacheWillMatch := Some (λ _, Normal None);
     cacheWillUpdate := None; fetchDidFail := None; requestWillFetch := None |}.

Definition forgetful_notifying_wrapper : RequestWrapper :=
  {| cacheName := "images"; fetchOptions := None; matchOptions := None;
     callbacks := foldl register no_callbacks [notifier; forgetful] |}.

Definition old_image : Response := response_of "/a" 200 "basic" "old".

Definition new_image : Response := response_of "/a" 200 "basic" "new".

Definition opaque_image : Response := response_of "" 0 "opaque" "".

Definition holding_old_image : gmap string Entries :=
  {[ "images" := [(GET "/a", old_image)] ]}.

(** The [oldResponse] each [cacheDidUpdate] callback was called with. *)
Definition cacheDidUpdate_oldResponses (events : list Event) : list (option Response) :=
  omap (λ event, match event with
                 | CallCacheDidUpdate _ _ oldResponse _ => Some oldResponse
                 | _ => None
                 end) events.

End WrapperStatements.

Section ExpirationStatements.
Import CacheExpiration.

(** A clock at 30 s, a [Date] that knows one date, ten seconds into the
    epoch, and a response with that date. *)
Definition ten_seconds_in : string := "Thu, 01 Jan 1970 00:00:10 GMT".

Definition at_30s : World :=
  {| caches := ∅; databases := ∅; clock := 30000;
     Date_parse := λ s, if String.eqb s ten_seconds_in then Some 10000%Z else None;
     pending := [] |}.

Definition dated (date : string) : Response :=
  {| url := "/a"; status := 200; type := "basic";
     headers := {[ "date" := date ]}; body := "x" |}.

Definition ten_seconds : Plugin :=
  {| maxEntries := JSUndefined; maxAgeSeconds := JSNumber 10 |}.

(** Records in ascending order of timestamp. *)
Definition by_timestamp (r1 r2 : string * Z) : Prop := (r1.2 ≤ r2.2)%Z.

(** A cache ["pages"] of three responses, stored at 1 s, 2 s and 3 s, and a
    plugin that allows two entries. *)
Definition page (url : string) : Response :=
  {| url := url; status := 200; type := "basic"; headers := ∅; body := url |}.

Definition three_pages : World :=
  {| caches := {[ "pages" := {[ "/a" := page "/a"; "/b" := page "/b"; "/c" := page "/c" ]} ]};
     databases := {[ idbId "pages" := {[ "/c" := 3000%Z; "/a" := 1000%Z; "/b" := 2000%Z ]} ]};
     clock := 3000;
     Date_parse := λ _, None;
     pending := [] |}.

Definition two_entries : Plugin :=
  {| maxEntries := JSNumber 2; maxAgeSeconds := JSUndefined |}.

(** The effect of [getDB] on the world. *)
Definition opened (cacheName : string) (w : World) : World :=
  set_databases (λ dbs, match dbs !! idbId cacheName with
                        | Some _ => dbs
                        | None => <[idbId cacheName := ∅]> dbs
                        end) w.

(** A world that has the timestamp records, the responses and the promises
    in flight of another. *)
Definition untouched (cacheName : string) (w w' : World) : Prop :=
  store_of (idbId cacheName) w' = store_of (idbId cacheName) w ∧
  (∀ name url, response_at name url w' = response_at name url w) ∧
  pending w' = pending w.

(** The URLs of the records of a store. *)
Definition stored (store : Store) (url : string) : Prop := is_Some (store !! url).

End ExpirationStatements.

Section WrapperFurtherStatements.
Import RuntimeCaching.

(** The events that are calls of [requestWillFetch] callbacks. *)
Definition is_rewrite_call (event : Event) : Prop :=
  match event with
  | CallRequestWillFetch _ => True
  | _ => False
  end.

(** What [fetch] throws when a [requestWillFetch] callback hands back
    something else than a promise of a Request. *)
Definition rewrite_failure (returned : Returned) : option JSError :=
  match returned with
  | NotAPromise => Some (AssertionError "returnedPromise")
  | PromiseOf (Rejected reason) => Some reason
  | PromiseOf (Fulfilled None) => Some (AssertionError "returnedRequest")
  | PromiseOf (Fulfilled (Some _)) => None
  end.

(** The [requestWillFetch] callbacks taken one after the other from
    [request]: the Requests they are called on, and the Request the last
    one resolves to, or the failure of the first that does not resolve to
    a Request, at which the calls end. *)
Fixpoint rewrites (registered : list (Request → Returned)) (request : Request)
  : list Request * Completion Request :=
  match registered with
  | [] => ([], Normal request)
  | callback :: rest =>
      match callback request with
      | PromiseOf (Fulfilled (Some returnedRequest)) =>
          let '(requests, outcome) := rewrites rest returnedRequest in
          (request :: requests, outcome)
      | NotAPromise => ([request], Throw (AssertionError "returnedPromise"))
      | PromiseOf (Rejected reason) => ([request], Throw reason)
      | PromiseOf (Fulfilled None) =>
          ([request], Throw (AssertionError "returnedRequest"))
      end
  end.

(** The events that are calls of the network. *)
Definition network_calls (events : list Event) : list Request :=
  omap (λ event, match event with
                 | NetworkFetch request _ => Some request
                 | _ => None
                 end) events.

(** A plugin that only decides what is cacheable. *)
Definition deciding (decide : Request → Response → bool) : Plugin :=
  {| cacheDidUpdate := None; cacheWillMatch := None;
     cacheWillUpdate := Some (λ request response, Normal (decide request response));
     fetchDidFail := None; requestWillFetch := None |}.

(** A plugin whose rewrite hands back something that is no promise. *)
Definition careless : Plugin :=
  {| cacheDidUpdate := None; cacheWillMatch := None; cacheWillUpdate := None;
     fetchDidFail := Some (reporting "report");
     requestWillFetch := Some (λ _, NotAPromise) |}.

Definition careless_wrapper : RequestWrapper :=
  {| cacheName := "sw-runtime-caching"; fetchOptions := None; matchOptions := None;
     callbacks := foldl register no_callbacks
                    [rewriter (with_header "x-first" "1") None; careless;
                     rewriter (with_header "x-second" "2") None] |}.

(** A plugin that takes exactly the responses of status 404 for cacheable,
    and a wrapper with it. *)
Definition contrary : Plugin :=
  deciding (λ _ response, (status response =? 404)%Z).

Definition contrary_wrapper : RequestWrapper :=
  {| cacheName := "sw-runtime-caching"; fetchOptions := None; matchOptions := None;
     callbacks := foldl register no_callbacks [contrary] |}.

(** A wrapper whose only plugin lets no cached response through. *)
Definition forgetful_wrapper : RequestWrapper :=
  {| cacheName := "images"; fetchOptions := None; matchOptions := None;
     callbacks := foldl register no_callbacks [forgetful] |}.

(** Plugins whose [fetchDidFail] callbacks are a first that returns, a
    second that throws and a third, and a wrapper with them. *)
Definition broken_report : JSError := PlatformError "TypeError: report is not defined".

Definition three_observers : list Plugin :=
  [rewriter (with_header "x-first" "1") (Some (reporting "first"));
   rewriter (with_header "x-second" "2") (Some (failing "second" broken_report));
   rewriter (with_header "x-third" "3") (Some (reporting "third"))].

Definition observing_wrapper : RequestWrapper :=
  {| cacheName := "sw-runtime-caching"; fetchOptions := None; matchOptions := None;
     callbacks := foldl register no_callbacks three_observers |}.

(** A platform on which match options, when given, leave the search part
    of the URLs out of the comparison (as [ignoreSearch] does), a wrapper
    that gives such options, and a world whose cache holds a response under
    a URL with a search part. *)
Fixpoint without_search (url : string) : string :=
  match url with
  | EmptyString => EmptyString
  | String c rest =>
      if String.eqb (String c EmptyString) "?" then EmptyString else String c (without_search rest)
  end.

Definition ignoring_search : Matching :=
  λ options request entry,
    String.eqb (request_method request) "GET" &&
    match options with
    | Some _ =>
        String.eqb (without_search (request_url request))
          (without_search (request_url entry.1))
    | None => String.eqb (request_url request) (request_url entry.1)
    end.

Definition searchless_wrapper : RequestWrapper :=
  {| cacheName := "pages"; fetchOptions := None;
     matchOptions := Some [("ignoreSearch", "true")]; callbacks := no_callbacks |}.

Definition versioned : World :=
  {| caches := {[ "pages" := [(GET "/a?v=1", old_image)] ]};
     cache_matches := ignoring_search; cache_refuses := get_only;
     network := serving new_image; trace := []; pending := [] |}.

End WrapperFurtherStatements.

Section ExpirationFurtherStatements.
Import CacheExpiration.

(** A limit of the plugin as the code reads it: none when the option is
    falsy, and its number otherwise. *)
Definition limit_of (value : JSValue) : option Z :=
  if truthy value then ToNumber value else None.

(** The records of an index older than the maximum age at [now]. *)
Definition old_records (maxAgeSeconds : JSValue) (now : Z)
    (index : list (string * Z)) : list (string * Z) :=
  match limit_of maxAgeSeconds with
  | Some seconds => filter (λ r, (r.2 < now - seconds * 1000)%Z) index
  | None => []
  end.

(** The records of an index that are over the maximum number: the first
    ones, down to where the maximum is left. *)
Definition extra_records (maxEntries : JSValue) (index : list (string * Z))
  : list (string * Z) :=
  match limit_of maxEntries with
  | Some entries => take (Z.to_nat (Z.of_nat (length index) - entries)) index
  | None => []
  end.

End ExpirationFurtherStatements.

Section CliStatements.
Import Cli.

(** A package whose help file reads ["usage"], of version ["1.0.0"], and
    whose service worker generation succeeds. *)
Definition packaged : Environment :=
  {| help_file := Normal "usage"; pkg_version := "1.0.0"; generateSW := Resolves |}.

(** Arguments with the given commands and the flag [--help]. *)
Definition asking_help (commands : list string) : CliArgs :=
  {| positional := commands; h := JSUndefined; help := JSBoolean true;
     v := JSUndefined; version := JSUndefined |}.

End CliStatements.

Section ManifestStatements.
Import WriteFileManifest.

(** The entries the loop of [writeFileManifest] lets through: strings, and
    objects with a truthy [url]. *)
Definition valid_entry (entry : Value) : bool :=
  match entry with
  | VString _ => true
  | VObject url => truthy url
  | _ => false
  end.

(** A file system on which everything succeeds, with a template that
    is populated to itself. *)
Definition working : Environment :=
  {| errors := λ key, key;
     dirname := λ _, "build";
     templatePath := "templates/file-manifest.js.tmpl";
     mkdirp := λ _, None;
     readFile := λ _, inl "<%= manifestEntries %>";
     template := λ templateString _, inl templateString;
     writeFile := λ _ _, None |}.

End ManifestStatements.

(** * Properties *)

(** ** Sequencing *)

Lemma bind_normal {W A B} (m : Async W A) (f : A → Async W B) w a w' :
  m w = (Normal a, w') → bind m f w = f a w'.
Proof. intros Hm. unfold bind. by rewrite Hm. Qed.

Lemma bind_throw {W A B} (m : Async W A) (f : A → Async W B) w e w' :
  m w = (Throw e, w') → bind m f w = (Throw e, w').
Proof. intros Hm. unfold bind. by rewrite Hm. Qed.

(** ** The registry built by the constructor of the request wrapper *)

Section Registry.
Import RuntimeCaching.

Lemma foldl_push {A P} (get : P → option A) (plugins : list P)
    (registered : option (list A)) :
  foldl (λ acc plugin, push acc (get plugin)) registered plugins =
  match omap get plugins with
  | [] => registered
  | fs => Some (default [] registered ++ fs)
  end.
Proof.
  revert registered.
  induction plugins as [|plugin plugins IH]; intros registered; [reflexivity|].
  cbn [foldl]. rewrite IH.
  change (omap get (plugin :: plugins))
    with (match get plugin with
          | Some f => f :: omap get plugins
          | None => omap get plugins
          end).
  unfold push.
  destruct (get plugin) as [f|], (omap get plugins); cbn;
    by rewrite <- ?app_assoc.
Qed.

Lemma registry_fold (registry : PluginCallbacks) (plugins : list Plugin) :
  foldl register registry plugins =
  {| on_cacheDidUpdate :=
       foldl (λ acc p, push acc (cacheDidUpdate p)) (on_cacheDidUpdate registry) plugins;
     on_cacheWillMatch :=
       foldl (λ acc p, push acc (cacheWillMatch p)) (on_cacheWillMatch registry) plugins;
     on_cacheWillUpdate :=
       foldl (λ acc p, push acc (cacheWillUpdate p)) (on_cacheWillUpdate registry) plugins;
     on_fetchDidFail :=
       foldl (λ acc p, push acc (fetchDidFail p)) (on_fetchDidFail registry) plugins;
     on_requestWillFetch :=
       foldl (λ acc p, push acc (requestWillFetch p)) (on_requestWillFetch registry) plugins |}.
Proof.
  revert registry. induction plugins as [|plugin plugins IH]; intros registry.
  - by destruct registry.
  - cbn [foldl]. by rewrite IH.
Qed.

Lemma registry_of_plugins (plugins : list Plugin) :
  foldl register no_callbacks plugins =
  {| on_cacheDidUpdate := registered_of cacheDidUpdate plugins;
     on_cacheWillMatch := registered_of cacheWillMatch plugins;
     on_cacheWillUpdate := registered_of cacheWillUpdate plugins;
     on_fetchDidFail := registered_of fetchDidFail plugins;
     on_requestWillFetch := registered_of requestWillFetch plugins |}.
Proof.
  rewrite registry_fold, !foldl_push. unfold registered_of. cbn.
  f_equal; by match goal with |- context [omap ?g plugins] =>
    destruct (omap g plugins) end.
Qed.

Lemma multiple_registered_of {A} (get : Plugin → option A) (plugins : list Plugin) :
  multiple (registered_of get plugins) = (2 <=? length (omap get plugins))%nat.
Proof.
  unfold multiple, registered_of.
  destruct (omap get plugins) as [|f [|g fs]]; done.
Qed.

End Registry.

(** ** Construction of the request wrapper *)

Section WrapperConstruction.
Import RuntimeCaching.

Lemma constructor_on_plugins scope name plugins fo mo :
  constructor scope name plugins fo mo =
  if (2 <=? length (omap cacheWillUpdate (default [] plugins)))%nat then
    Throw (ErrorFactory.createError "multiple-cache-will-update-plugins")
  else if (2 <=? length (omap cacheWillMatch (default [] plugins)))%nat then
    Throw (ErrorFactory.createError "multiple-cache-will-match-plugins")
  else
    Normal {| cacheName := match name with
                           | Some name => if String.eqb name "" then defaultCacheName scope
                                          else name
                           | None => defaultCacheName scope
                           end;
              fetchOptions := fo; matchOptions := mo;
              callbacks := foldl register no_callbacks (default [] plugins) |}.
Proof.
  unfold constructor.
  replace (match plugins with
           | Some plugins => foldl register no_callbacks plugins
           | None => no_callbacks
           end) with (foldl register no_callbacks (default [] plugins))
    by by destruct plugins.
  rewrite registry_of_plugins. cbn [on_cacheWillUpdate on_cacheWillMatch].
  by rewrite !multiple_registered_of.
Qed.

(** C9, as amended. Two or more plugins with a [cacheWillUpdate] callback
    make the constructor throw [multiple-cache-will-update-plugins]; two or
    more with a [cacheWillMatch] callback make it throw
    [multiple-cache-will-match-plugins] when at most one has a
    [cacheWillUpdate]; with at most one of each the wrapper is constructed. *)
Theorem constructor_single_transform scope name plugins fo mo :
  let updaters := length (omap cacheWillUpdate (default [] plugins)) in
  let matchers := length (omap cacheWillMatch (default [] plugins)) in
  (2 ≤ updaters →
   constructor scope name plugins fo mo =
   Throw (ErrorFactory.createError "multiple-cache-will-update-plugins")) ∧
  (updaters ≤ 1 → 2 ≤ matchers →
   constructor scope name plugins fo mo =
   Throw (ErrorFactory.createError "multiple-cache-will-match-plugins")) ∧
  (updaters ≤ 1 → matchers ≤ 1 →
   ∃ this, constructor scope name plugins fo mo = Normal this).
Proof.
  intros updaters matchers. rewrite constructor_on_plugins.
  fold updaters matchers.
  destruct (Nat.leb_spec 2 updaters), (Nat.leb_spec 2 matchers);
    repeat split; intros; try lia; eauto.
Qed.

Lemma constructor_single_transform_witness :
  constructor None None (Some [update_only; update_only]) None None =
    Throw (ErrorFactory.createError "multiple-cache-will-update-plugins") ∧
  constructor None None (Some [match_only; update_only; match_only]) None None =
    Throw (ErrorFactory.createError "multiple-cache-will-match-plugins") ∧
  ∃ this, constructor None None (Some [match_only; update_only]) None None = Normal this.
Proof.
  split; [|split].
  - apply (constructor_single_transform None None (Some [update_only; update_only]) None None).
    simpl. lia.
  - apply (constructor_single_transform None None
             (Some [match_only; update_only; match_only]) None None);
      simpl; lia.
  - apply (constructor_single_transform None None
             (Some [match_only; update_only]) None None);
      simpl; lia.
Defined.

(** C9 as it is stated fails: of two plugins that each have both transform
    callbacks, two have a [cacheWillMatch] callback, and the error of the
    constructor is not [multiple-cache-will-match-plugins]. *)
Lemma constructor_match_error_counterexample :
  ¬ (2 ≤ length (omap cacheWillMatch [both_transforms; both_transforms]) →
     constructor None None (Some [both_transforms; both_transforms]) None None =
     Throw (ErrorFactory.createError "multiple-cache-will-match-plugins")).
Proof.
  intros claim. specialize (claim ltac:(simpl; lia)).
  vm_compute in claim. discriminate claim.
Qed.

End WrapperConstruction.

(** ** Construction of the expiration plugin *)

Section PluginConstruction.
Import CacheExpiration.

(** C10. With [maxEntries] the number 0 and no [maxAgeSeconds] the
    constructor throws [max-entries-or-age-required], and so it does with
    [maxAgeSeconds] the number 0 and no [maxEntries]; whatever the other
    option is, an option that is 0 has the constructor throw what it
    throws when the option is left out, and a plugin constructed with it
    tests the option as not set. *)
Theorem constructor_zero_is_absent :
  constructor (JSNumber 0) JSUndefined =
    Throw (ErrorFactory.createError "max-entries-or-age-required") ∧
  constructor JSUndefined (JSNumber 0) =
    Throw (ErrorFactory.createError "max-entries-or-age-required") ∧
  (∀ other,
     match constructor (JSNumber 0) other, constructor JSUndefined other with
     | Throw e0, Throw e => e0 = e
     | Normal p0, Normal p =>
         truthy (maxEntries p0) = false ∧ truthy (maxEntries p) = false ∧
         maxAgeSeconds p0 = maxAgeSeconds p
     | _, _ => False
     end) ∧
  (∀ other,
     match constructor other (JSNumber 0), constructor other JSUndefined with
     | Throw e0, Throw e => e0 = e
     | Normal p0, Normal p =>
         truthy (maxAgeSeconds p0) = false ∧ truthy (maxAgeSeconds p) = false ∧
         maxEntries p0 = maxEntries p
     | _, _ => False
     end).
Proof.
  repeat split.
  - intros other. unfold constructor. cbn [truthy Z.eqb negb orb andb].
    destruct (truthy other); cbn [negb orb andb]; [|done].
    destruct (negb (typeof other =? "number")%string); done.
  - intros other. unfold constructor. cbn [truthy Z.eqb negb orb andb].
    rewrite !orb_false_r.
    destruct (truthy other); cbn [negb orb andb]; [|done].
    destruct (negb (typeof other =? "number")%string); done.
Qed.

End PluginConstruction.

(** ** [fetch]: the request rewrites and the failure observers *)

Section Fetch.
Import RuntimeCaching.

Lemma observed_nil w : observed [] w = w.
Proof. destruct w. unfold observed. cbn. by rewrite app_nil_r. Qed.

Lemma observed_observed es es' w : observed es' (observed es w) = observed (es ++ es') w.
Proof. unfold observed. cbn. by rewrite app_assoc. Qed.

Lemma log_observed e w : log e w = (Normal tt, observed [e] w).
Proof. reflexivity. Qed.

Lemma requestWillFetch_loop_resolves fs request w :
  requestWillFetch_loop (map resolves fs) request w =
  (Normal (rewritten fs request),
   observed (map CallRequestWillFetch (inputs fs request)) w).
Proof.
  revert request w. induction fs as [|f fs IH]; intros request w.
  - cbn. by rewrite observed_nil.
  - cbn [map requestWillFetch_loop inputs rewritten foldl].
    unfold bind at 1. rewrite log_observed. unfold resolves at 1.
    rewrite IH, observed_observed. reflexivity.
Qed.

(** A loop that calls each observer in turn: the calls are those of
    [called], and the loop throws what [thrown] gives. *)
Lemma for_of_observers {A} (observers : list (Observer A)) (event : string → Event)
    argument w :
  for_of observers
    (λ callback, log (event (observer_name callback)) ;;; call callback argument) w =
  (match thrown observers argument with
   | Some err => Throw err
   | None => Normal tt
   end,
   observed (map (λ callback, event (observer_name callback))
               (called observers argument)) w).
Proof.
  revert w. induction observers as [|callback rest IH]; intros w.
  - cbn. by rewrite observed_nil.
  - cbn [for_of called thrown map]. unfold bind at 1. unfold bind at 1.
    rewrite log_observed. unfold call.
    destruct (observer_throws callback argument) as [err|]; [done|].
    cbn [ret]. rewrite IH, observed_observed. reflexivity.
Qed.

Lemma called_all {A} (observers : list (Observer A)) argument :
  Forall (λ callback, observer_throws callback argument = None) observers →
  called observers argument = observers ∧ thrown observers argument = None.
Proof.
  induction 1 as [|callback rest Hcallback _ [IHcalled IHthrown]]; [done|].
  cbn. by rewrite Hcallback, IHcalled, IHthrown.
Qed.

Lemma called_until {A} (before : list (Observer A)) thrower after argument err :
  Forall (λ callback, observer_throws callback argument = None) before →
  observer_throws thrower argument = Some err →
  called (before ++ thrower :: after) argument = before ++ [thrower] ∧
  thrown (before ++ thrower :: after) argument = Some err.
Proof.
  intros Hbefore Hthrower.
  induction Hbefore as [|callback rest Hcallback _ [IHcalled IHthrown]]; cbn.
  - by rewrite Hthrower.
  - by rewrite Hcallback, IHcalled, IHthrown.
Qed.

(** What [fetch] does when its rewrites all resolve to Requests. *)
Lemma fetch_resolves this fs request w :
  default [] (on_requestWillFetch (callbacks this)) = map resolves fs →
  let sent := rewritten fs request in
  let observers := default [] (on_fetchDidFail (callbacks this)) in
  fetch this request w =
  match network w sent with
  | Fulfilled response =>
      (Normal response,
       observed (map CallRequestWillFetch (inputs fs request) ++
                 [NetworkFetch sent (fetchOptions this)]) w)
  | Rejected err =>
      (Throw (default err (thrown observers sent)),
       observed (map CallRequestWillFetch (inputs fs request) ++
                 [NetworkFetch sent (fetchOptions this)] ++
                 map (λ callback, CallFetchDidFail (observer_name callback) sent)
                   (called observers sent)) w)
  end.
Proof.
  intros Hregistered sent observers. unfold fetch.
  assert (match on_requestWillFetch (callbacks this) with
          | Some registered => requestWillFetch_loop registered request
          | None => ret request
          end w = (Normal sent,
                   observed (map CallRequestWillFetch (inputs fs request)) w)) as Hloop.
  { destruct (on_requestWillFetch (callbacks this)) as [registered|];
      simpl in Hregistered.
    - subst registered. apply requestWillFetch_loop_resolves.
    - destruct fs; [|done]. cbn. by rewrite observed_nil. }
  unfold bind at 1. rewrite Hloop.
  unfold try_catch, platform_fetch. unfold bind at 1. rewrite log_observed.
  unfold bind at 1. unfold gets.
  rewrite observed_observed. cbn [network observed].
  destruct (network w sent) as [response|err]; [done|].
  cbn [throw]. subst observers.
  destruct (on_fetchDidFail (callbacks this)) as [registered|]; cbn [default];
    unfold id.
  - unfold bind at 1.
    rewrite (for_of_observers registered (λ name, CallFetchDidFail name sent)).
    rewrite observed_observed, <- app_assoc.
    by destruct (thrown registered sent).
  - reflexivity.
Qed.

Lemma constructed_callbacks scope name plugins fo mo this :
  constructor scope name plugins fo mo = Normal this →
  callbacks this = foldl register no_callbacks (default [] plugins) ∧
  length (omap cacheWillUpdate (default [] plugins)) ≤ 1 ∧
  length (omap cacheWillMatch (default [] plugins)) ≤ 1.
Proof.
  rewrite constructor_on_plugins.
  destruct (Nat.leb_spec 2 (length (omap cacheWillUpdate (default [] plugins))));
    [done|].
  destruct (Nat.leb_spec 2 (length (omap cacheWillMatch (default [] plugins))));
    [done|].
  intros [= <-]. cbn. repeat split; lia.
Qed.

Lemma default_registered_of {A} (get : Plugin → option A) plugins :
  default [] (registered_of get plugins) = omap get plugins.
Proof. unfold registered_of. by destruct (omap get plugins). Qed.

(** C6. On a wrapper constructed from plugins whose [requestWillFetch]
    callbacks are, in the order of the plugins, [P1, ..., Pn], [fetch]
    calls them in that order, each on the Request the one before it
    resolved to, and then calls the network on [Pn (... (P1 r))]; what
    follows a network call that rejects are the calls of the
    [fetchDidFail] callbacks. *)
Theorem fetch_rewrites_in_order scope name plugins fo mo this fs request w :
  constructor scope name (Some plugins) fo mo = Normal this →
  omap requestWillFetch plugins = map resolves fs →
  ∃ after,
    trace (fetch this request w).2 =
      trace w ++ map CallRequestWillFetch (inputs fs request) ++
      NetworkFetch (rewritten fs request) (fetchOptions this) :: after ∧
    after = match network w (rewritten fs request) with
            | Fulfilled _ => []
            | Rejected _ =>
                map (λ callback,
                       CallFetchDidFail (observer_name callback) (rewritten fs request))
                  (called (omap fetchDidFail plugins) (rewritten fs request))
            end.
Proof.
  intros Hthis Hfs. apply constructed_callbacks in Hthis as [Hcallbacks _].
  cbn [default] in Hcallbacks. rewrite registry_of_plugins in Hcallbacks.
  rewrite (fetch_resolves this fs).
  - eexists. split; [|reflexivity].
    rewrite Hcallbacks. cbn [on_fetchDidFail]. rewrite default_registered_of.
    destruct (network w (rewritten fs request)); cbn [snd trace observed];
      by rewrite <- ?app_assoc.
  - rewrite Hcallbacks. cbn [on_requestWillFetch].
    by rewrite default_registered_of.
Qed.

End Fetch.

Section FetchFailure.
Import RuntimeCaching.

(** C2, as amended. When the network call rejects, [fetch] calls the
    [fetchDidFail] callbacks in the order of the plugins, each on the
    Request the network call was made with, which is the one the
    [requestWillFetch] rewrites ended in. When none of them throws all are
    called and [fetch] throws the reason of the rejection; when one throws,
    those after it are not called and [fetch] throws what it threw. *)
Theorem fetchDidFail_gets_network_request
    scope name plugins fo mo this fs request w err :
  constructor scope name (Some plugins) fo mo = Normal this →
  omap requestWillFetch plugins = map resolves fs →
  network w (rewritten fs request) = Rejected err →
  let sent := rewritten fs request in
  let observers := omap fetchDidFail plugins in
  trace (fetch this request w).2 =
    trace w ++ map CallRequestWillFetch (inputs fs request) ++
    [NetworkFetch sent (fetchOptions this)] ++
    map (λ callback, CallFetchDidFail (observer_name callback) sent)
      (called observers sent) ∧
  (Forall (λ callback, observer_throws callback sent = None) observers →
   called observers sent = observers ∧
   (fetch this request w).1 = Throw err) ∧
  (∀ before thrower after e,
     observers = before ++ thrower :: after →
     Forall (λ callback, observer_throws callback sent = None) before →
     observer_throws thrower sent = Some e →
     called observers sent = before ++ [thrower] ∧
     (fetch this request w).1 = Throw e).
Proof.
  intros Hthis Hfs Hnet sent observers.
  apply constructed_callbacks in Hthis as [Hcallbacks _].
  cbn [default] in Hcallbacks. rewrite registry_of_plugins in Hcallbacks.
  assert (default [] (on_fetchDidFail (callbacks this)) = observers) as Hobservers.
  { rewrite Hcallbacks. cbn [on_fetchDidFail]. apply default_registered_of. }
  rewrite (fetch_resolves this fs).
  2:{ rewrite Hcallbacks. cbn [on_requestWillFetch]. by rewrite default_registered_of. }
  cbn zeta. rewrite Hnet, Hobservers. subst sent. cbn [fst snd trace observed].
  split; [done|]. split.
  - intros [-> ->]%called_all. done.
  - intros before thrower after e -> Hbefore Hthrower.
    destruct (called_until before thrower after _ e Hbefore Hthrower) as [-> ->].
    done.
Qed.

Lemma fetchDidFail_gets_network_request_witness :
  let request := GET "/a" in
  let w := world ∅ offline in
  let sent := rewritten [with_header "x-first" "1"; with_header "x-second" "2"]
                request in
  let observers := omap fetchDidFail two_rewriters in
  trace (fetch rewriting_wrapper request w).2 =
    trace w ++
    map CallRequestWillFetch
      (inputs [with_header "x-first" "1"; with_header "x-second" "2"] request) ++
    [NetworkFetch sent (fetchOptions rewriting_wrapper)] ++
    map (λ callback, CallFetchDidFail (observer_name callback) sent)
      (called observers sent) ∧
  (Forall (λ callback, observer_throws callback sent = None) observers →
   called observers sent = observers ∧
   (fetch rewriting_wrapper request w).1 =
     Throw (PlatformError "TypeError: Failed to fetch")) ∧
  (∀ before thrower after e,
     observers = before ++ thrower :: after →
     Forall (λ callback, observer_throws callback sent = None) before →
     observer_throws thrower sent = Some e →
     called observers sent = before ++ [thrower] ∧
     (fetch rewriting_wrapper request w).1 = Throw e).
Proof.
  apply (fetchDidFail_gets_network_request None None two_rewriters None None
           rewriting_wrapper
           [with_header "x-first" "1"; with_header "x-second" "2"]
           (GET "/a") (world ∅ offline)
           (PlatformError "TypeError: Failed to fetch"));
    reflexivity.
Defined.

(** C2 as it is stated fails: with a rewrite that adds a header and the
    network down, the [fetchDidFail] callback is called, and not on the
    Request [fetch] was called with. *)
Lemma fetchDidFail_original_request_counterexample :
  ¬ Forall (λ request, request = GET "/a")
      (fetchDidFail_requests
         (trace (fetch rewriting_wrapper (GET "/a") (world ∅ offline)).2)).
Proof.
  intros claim. vm_compute in claim.
  apply Forall_cons in claim as [claim _]. discriminate claim.
Qed.

Lemma fetch_rewrites_in_order_witness :
  ∃ after,
    trace (fetch rewriting_wrapper (GET "/a") (world ∅ offline)).2 =
      trace (world ∅ offline) ++
      map CallRequestWillFetch
        (inputs [with_header "x-first" "1"; with_header "x-second" "2"] (GET "/a")) ++
      NetworkFetch
        (rewritten [with_header "x-first" "1"; with_header "x-second" "2"] (GET "/a"))
        (fetchOptions rewriting_wrapper) :: after ∧
    after = match network (world ∅ offline)
                    (rewritten [with_header "x-first" "1"; with_header "x-second" "2"]
                       (GET "/a")) with
            | Fulfilled _ => []
            | Rejected _ =>
                map (λ callback,
                       CallFetchDidFail (observer_name callback)
                         (rewritten
                            [with_header "x-first" "1"; with_header "x-second" "2"]
                            (GET "/a")))
                  (called (omap fetchDidFail two_rewriters)
                     (rewritten
                        [with_header "x-first" "1"; with_header "x-second" "2"]
                        (GET "/a")))
            end.
Proof.
  apply (fetch_rewrites_in_order None None two_rewriters None None
           rewriting_wrapper
           [with_header "x-first" "1"; with_header "x-second" "2"]);
    reflexivity.
Defined.

(** For two rewrites the network call is made with [P2 (P1 original)], and
    [P2] is called on [P1 original]. *)
Example two_rewrites P1 P2 original :
  rewritten [P1; P2] original = P2 (P1 original) ∧
  inputs [P1; P2] original = [original; P1 original].
Proof. done. Qed.

(** Of three [fetchDidFail] callbacks of which the second throws, the
    third is not called, and [fetch] throws what the second threw, not the
    reason the network call was rejected with. *)
Example second_observer_throws :
  let request :=
    rewritten [with_header "x-first" "1"; with_header "x-second" "2";
               with_header "x-third" "3"] (GET "/a") in
  fetch observing_wrapper (GET "/a") (world ∅ offline) =
  (Throw broken_report,
   observed
     [CallRequestWillFetch (GET "/a");
      CallRequestWillFetch (with_header "x-first" "1" (GET "/a"));
      CallRequestWillFetch
        (with_header "x-second" "2" (with_header "x-first" "1" (GET "/a")));
      NetworkFetch request None;
      CallFetchDidFail "first" request;
      CallFetchDidFail "second" request]
     (world ∅ offline)).
Proof. reflexivity. Qed.

End FetchFailure.

(** ** What only shows in the trace *)

Section Quiet.
Import RuntimeCaching.

Lemma quiet_ret {A} (a : A) : quiet (ret a).
Proof. intros w. exists []. by rewrite observed_nil. Qed.

Lemma quiet_throw {A} e : quiet (@throw World A e).
Proof. intros w. exists []. by rewrite observed_nil. Qed.

Lemma quiet_gets {A} (f : World → A) : quiet (gets f).
Proof. intros w. exists []. by rewrite observed_nil. Qed.

Lemma quiet_log e : quiet (log e).
Proof. intros w. by exists [e]. Qed.

Lemma quiet_bind {A B} (m : Async World A) (f : A → Async World B) :
  quiet m → (∀ a, quiet (f a)) → quiet (bind m f).
Proof.
  intros Hm Hf w. unfold bind. destruct (Hm w) as [es Hes].
  destruct (m w) as [[a|e] w']; cbn in Hes; subst w'.
  - destruct (Hf a (observed es w)) as [es' ->].
    exists (es ++ es'). by rewrite observed_observed.
  - by exists es.
Qed.

Lemma quiet_try_catch {A} (m : Async World A) handler :
  quiet m → (∀ e, quiet (handler e)) → quiet (try_catch m handler).
Proof.
  intros Hm Hh w. unfold try_catch. destruct (Hm w) as [es Hes].
  destruct (m w) as [[a|e] w']; cbn in Hes; subst w'.
  - by exists es.
  - destruct (Hh e (observed es w)) as [es' ->].
    exists (es ++ es'). by rewrite observed_observed.
Qed.

Lemma quiet_for_of {A} (xs : list A) body :
  (∀ x, quiet (body x)) → quiet (for_of xs body).
Proof.
  intros Hbody. induction xs as [|x xs IH]; cbn [for_of].
  - apply quiet_ret.
  - apply quiet_bind; auto.
Qed.

Lemma quiet_first {A} (registered : list A) : quiet (first registered).
Proof. destruct registered; [apply quiet_throw|apply quiet_ret]. Qed.

Lemma quiet_completes {A} (c : Completion A) : quiet (completes c).
Proof. intros w. exists []. by rewrite observed_nil. Qed.

Lemma quiet_call {A} (callback : Observer A) argument :
  quiet (call callback argument).
Proof.
  unfold call. destruct (observer_throws callback argument);
    [apply quiet_throw|apply quiet_ret].
Qed.

Create HintDb quiet.
Hint Resolve quiet_ret quiet_throw quiet_gets quiet_log quiet_bind
  quiet_try_catch quiet_for_of quiet_first quiet_completes quiet_call : quiet.

Lemma quiet_requestWillFetch_loop registered request :
  quiet (requestWillFetch_loop registered request).
Proof.
  revert request. induction registered as [|callback rest IH]; intros request;
    cbn [requestWillFetch_loop]; [auto with quiet|].
  apply quiet_bind; [auto with quiet|]. intros _.
  destruct (callback request) as [|[[returned|]|reason]]; auto with quiet.
Qed.

Lemma quiet_fetch this request : quiet (fetch this request).
Proof.
  unfold fetch, platform_fetch. apply quiet_bind.
  - destruct (on_requestWillFetch (callbacks this));
      auto using quiet_requestWillFetch_loop with quiet.
  - intros request'. apply quiet_try_catch.
    + apply quiet_bind; [auto with quiet|]. intros _.
      apply quiet_bind; [auto with quiet|]. intros []; auto with quiet.
    + intros err. apply quiet_bind; [|auto with quiet].
      destruct (on_fetchDidFail (callbacks this)); auto 6 with quiet.
Qed.

Lemma quiet_cacheable this request response :
  quiet (cacheable this request response).
Proof.
  unfold cacheable. destruct (on_cacheWillUpdate (callbacks this));
    auto 6 with quiet.
Qed.

Lemma quiet_result {A} (m : Async World A) w a w' :
  quiet m → m w = (a, w') →
  caches w' = caches w ∧ network w' = network w ∧ pending w' = pending w ∧
  ∃ events, w' = observed events w.
Proof.
  intros Hm Hw. destruct (Hm w) as [events Hevents].
  rewrite Hw in Hevents. cbn in Hevents. subst w'. eauto.
Qed.

End Quiet.

(** ** [fetchAndCache] *)

Section FetchAndCache.
Import RuntimeCaching.

Lemma storage_entries_open name name' (storage : gmap string Entries) :
  storage_entries name (storage_open name' storage) = storage_entries name storage.
Proof.
  unfold storage_entries, storage_open.
  destruct (storage !! name') eqn:Hname'; [done|].
  destruct (decide (name' = name)) as [->|Hne].
  - by rewrite lookup_insert_eq, Hname'.
  - by rewrite lookup_insert_ne.
Qed.

Lemma storage_entries_put matching name key response (storage : gmap string Entries) :
  storage_entries name (storage_put matching name key response storage) =
  entries_put matching key response (storage_entries name storage).
Proof. unfold storage_entries at 1, storage_put. by rewrite lookup_insert_eq. Qed.

Lemma storage_entries_put_other matching name name' key response
    (storage : gmap string Entries) :
  name' ≠ name →
  storage_entries name' (storage_put matching name key response storage) =
  storage_entries name' storage.
Proof.
  intros Hne. unfold storage_entries at 1, storage_put.
  by rewrite lookup_insert_ne.
Qed.

Lemma set_caches_observed f events w :
  set_caches f (observed events w) = observed events (set_caches f w).
Proof. reflexivity. Qed.

Lemma getCache_spec this w :
  getCache this w =
  (Normal (cacheName this), set_caches (storage_open (cacheName this)) w).
Proof. reflexivity. Qed.

Lemma match_spec this request w :
  on_cacheWillMatch (callbacks this) ≠ Some [] →
  match_ this request w =
  (matched this (found_by this request w),
   observed (lookup_events this request (found_by this request w))
     (set_caches (storage_open (cacheName this)) w)).
Proof.
  intros Hwf. unfold match_.
  rewrite (bind_normal _ _ _ _ _ (getCache_spec this w)).
  rewrite (bind_normal _ _ _ _ _ (log_observed _ _)).
  unfold bind at 1. unfold gets at 1.
  cbn [caches cache_matches observed set_caches].
  rewrite storage_entries_open. fold (found_by this request w).
  unfold matched, lookup_events.
  destruct (on_cacheWillMatch (callbacks this)) as [[|transform rest]|];
    [done| |].
  - cbn [first]. unfold bind at 1. unfold ret at 1.
    rewrite (bind_normal _ _ _ _ _ (log_observed _ _)).
    unfold completes. by rewrite observed_observed.
  - reflexivity.
Qed.

(** [cachingComplete] from the put on. *)
Lemma put_and_notify_spec this key oldResponse newResponse w :
  (log (CachePut (cacheName this) key newResponse) ;;;
   let! refused := gets (λ w, cache_refuses w key newResponse) in
   match refused with
   | Some err => throw err
   | None =>
       modify (λ w, set_caches
                      (storage_put (cache_matches w) (cacheName this) key newResponse)
                      w) ;;;
       for_of (default [] (on_cacheDidUpdate (callbacks this)))
         (λ callback,
            log (CallCacheDidUpdate (observer_name callback) (cacheName this)
                   oldResponse newResponse) ;;;
            call callback (cacheName this, oldResponse, newResponse))
   end) w =
  put_and_notify this key oldResponse newResponse w.
Proof.
  rewrite (bind_normal _ _ _ _ _ (log_observed _ _)).
  unfold bind at 1. unfold gets at 1. cbn [cache_refuses observed].
  unfold put_and_notify.
  destruct (cache_refuses w key newResponse) as [err|]; [reflexivity|].
  unfold bind at 1. unfold modify at 1.
  rewrite (for_of_observers _
             (λ name, CallCacheDidUpdate name (cacheName this) oldResponse newResponse)).
  cbn [cache_matches observed]. rewrite set_caches_observed, observed_observed.
  reflexivity.
Qed.

Lemma cachingComplete_spec this request cacheKey response newResponse w :
  on_cacheWillMatch (callbacks this) ≠ Some [] →
  let cached := found_by this request w in
  let opened := set_caches (storage_open (cacheName this)) w in
  let key := default request cacheKey in
  cachingComplete this request cacheKey response newResponse w =
  if looks_up this response then
    match matched this cached with
    | Throw err => (Throw err, observed (lookup_events this request cached) opened)
    | Normal oldResponse =>
        put_and_notify this key oldResponse newResponse
          (observed (lookup_events this request cached) opened)
    end
  else put_and_notify this key None newResponse opened.
Proof.
  intros Hwf cached opened key. unfold cachingComplete.
  fold (looks_up this response).
  rewrite (bind_normal _ _ _ _ _ (getCache_spec this w)). fold opened.
  destruct (looks_up this response).
  - pose proof (match_spec this request opened Hwf) as Hmatch.
    assert (found_by this request opened = cached) as Hfound.
    { unfold found_by, opened. cbn [caches cache_matches set_caches].
      by rewrite storage_entries_open. }
    rewrite Hfound in Hmatch.
    assert (set_caches (storage_open (cacheName this)) opened = opened) as Hopened.
    { unfold opened, set_caches, storage_open. cbn. f_equal.
      destruct (caches w !! cacheName this) eqn:Hname.
      - by rewrite Hname.
      - by rewrite lookup_insert_eq. }
    rewrite Hopened in Hmatch.
    destruct (matched this cached) as [oldResponse|err].
    + rewrite (bind_normal _ _ _ _ _ Hmatch). apply put_and_notify_spec.
    + by rewrite (bind_throw _ _ _ _ _ Hmatch).
  - unfold bind at 1. unfold ret at 1. apply put_and_notify_spec.
Qed.

(** What a [fetchAndCache] that finds the response cacheable comes to: the
    write is run before the call returns, and a failure of the write is
    the failure of the call, or the write is left in flight. *)
Lemma fetchAndCache_cacheable this request waitOnCache cacheKey w response w1 w2 :
  fetch this request w = (Normal response, w1) →
  cacheable this request response w1 = (Normal true, w2) →
  fetchAndCache this request waitOnCache cacheKey w =
  if waitOnCache
  then (match (run (write_of this request cacheKey response) w2).1 with
        | Normal _ => Normal response
        | Throw err => Throw err
        end,
        (run (write_of this request cacheKey response) w2).2)
  else (Normal response, in_flight (write_of this request cacheKey response) w2).
Proof.
  intros Hfetch Hcacheable. unfold fetchAndCache.
  rewrite (bind_normal _ _ _ _ _ Hfetch), (bind_normal _ _ _ _ _ Hcacheable).
  unfold write_of, run. destruct waitOnCache.
  - unfold bind.
    by destruct (cachingComplete this request cacheKey response (clone response) w2)
      as [[[]|err] w'].
  - reflexivity.
Qed.

Lemma fetchAndCache_not_cacheable this request waitOnCache cacheKey w response w1 w2 :
  fetch this request w = (Normal response, w1) →
  cacheable this request response w1 = (Normal false, w2) →
  fetchAndCache this request waitOnCache cacheKey w =
  (if waitOnCache
   then Throw (ErrorFactory.createError "invalid-reponse-for-caching")
   else Normal response, w2).
Proof.
  intros Hfetch Hcacheable. unfold fetchAndCache.
  rewrite (bind_normal _ _ _ _ _ Hfetch), (bind_normal _ _ _ _ _ Hcacheable).
  by destruct waitOnCache.
Qed.

(** What the write leaves of the caches, from whatever world it runs: the
    other caches as they were, and the cache of the wrapper with the
    response put under the key, unless the lookup of the old response
    throws or the put is refused. *)
Lemma run_write_entries this request cacheKey response w :
  on_cacheWillMatch (callbacks this) ≠ Some [] →
  let key := default request cacheKey in
  let write := write_of this request cacheKey response in
  let entries := storage_entries (cacheName this) (caches w) in
  let entries' := storage_entries (cacheName this) (caches (run write w).2) in
  (∀ name, name ≠ cacheName this →
           storage_entries name (caches (run write w).2) =
           storage_entries name (caches w)) ∧
  cache_matches (run write w).2 = cache_matches w ∧
  match write_failure this request cacheKey response w with
  | Some err => (run write w).1 = Throw err ∧ entries' = entries
  | None => entries' = kept w key entries ++ [(key, response)]
  end.
Proof.
  intros Hwf key write entries entries'. subst write entries'.
  unfold write_of, run, clone. rewrite cachingComplete_spec by done.
  fold key. unfold write_failure, put_and_notify. fold key.
  destruct (looks_up this response);
    [destruct (matched this (found_by this request w)) as [oldResponse|err]|];
    cbn [cache_refuses cache_matches observed set_caches];
    try destruct (cache_refuses w key response) as [err|];
    cbn [fst snd caches cache_matches observed set_caches];
    rewrite ?storage_entries_put, ?storage_entries_open;
    (split; [intros name' Hname';
             rewrite ?storage_entries_put_other by done;
             apply storage_entries_open|]);
    split; try done.
Qed.

End FetchAndCache.

Section FetchAndCacheClaims.
Import RuntimeCaching.

Lemma registered_of_nonempty {A} (get : Plugin → option A) plugins :
  registered_of get plugins ≠ Some [].
Proof. unfold registered_of. by destruct (omap get plugins). Qed.

Lemma registered_of_is_Some {A} (get : Plugin → option A) plugins :
  bool_decide (is_Some (registered_of get plugins)) =
  bool_decide (omap get plugins ≠ []).
Proof.
  unfold registered_of. destruct (omap get plugins).
  - rewrite !bool_decide_eq_false_2; [done|naive_solver|by intros []].
  - rewrite !bool_decide_eq_true_2; [done|done|by eexists].
Qed.

(** C3, as the code has it. When [fetchAndCache] is called with
    [waitOnCache] true and the fetched response is judged not cacheable, the
    call fails with the error made for [invalid-reponse-for-caching], which
    is not the identifier [invalid-response-for-caching]. *)
Theorem fetchAndCache_uncacheable_error this request cacheKey w response w1 w2 :
  fetch this request w = (Normal response, w1) →
  cacheable this request response w1 = (Normal false, w2) →
  fetchAndCache this request true cacheKey w =
    (Throw (ErrorFactory.createError "invalid-reponse-for-caching"), w2) ∧
  ErrorFactory.identifier (ErrorFactory.createError "invalid-reponse-for-caching")
    ≠ Some "invalid-response-for-caching".
Proof.
  intros Hfetch Hcacheable. split; [|done].
  unfold fetchAndCache.
  by rewrite (bind_normal _ _ _ _ _ Hfetch), (bind_normal _ _ _ _ _ Hcacheable).
Qed.

Lemma fetchAndCache_uncacheable_error_witness :
  fetchAndCache plain_wrapper (GET "/a") true None (world ∅ (serving not_found)) =
    (Throw (ErrorFactory.createError "invalid-reponse-for-caching"),
     observed [NetworkFetch (GET "/a") None] (world ∅ (serving not_found))) ∧
  ErrorFactory.identifier (ErrorFactory.createError "invalid-reponse-for-caching")
    ≠ Some "invalid-response-for-caching".
Proof.
  apply (fetchAndCache_uncacheable_error plain_wrapper (GET "/a") None
           (world ∅ (serving not_found)) not_found
           (observed [NetworkFetch (GET "/a") None] (world ∅ (serving not_found))));
    reflexivity.
Defined.

(** C7, as amended. On a wrapper constructed from plugins none of which has
    a [cacheWillUpdate] callback, [fetchAndCache] judges the fetched
    response cacheable exactly when [response.ok] holds, which a status of
    200 is and a status of 404 is not. A response that is ok goes to the
    write: with [waitOnCache] the write is run before the call returns and
    its failure is the failure of the call, and without it the write is
    left in flight. From whatever world the write runs, it leaves the
    response in the cache of the wrapper under the cache key, as the last
    entry and in the place of the entries the key matches, unless the
    lookup of the old response throws or the platform refuses the put; then
    the write fails and the cache is as it was. For a response that is not
    ok nothing is put and nothing is left in flight. *)
Theorem default_cacheability
    scope name plugins fo mo this request waitOnCache cacheKey w response w1 :
  constructor scope name plugins fo mo = Normal this →
  omap cacheWillUpdate (default [] plugins) = [] →
  fetch this request w = (Normal response, w1) →
  let key := default request cacheKey in
  let write := write_of this request cacheKey response in
  let result := fetchAndCache this request waitOnCache cacheKey w in
  cacheable this request response w1 = (Normal (ok response), w1) ∧
  (status response = 200%Z → ok response = true) ∧
  (status response = 404%Z → ok response = false) ∧
  caches w1 = caches w ∧ pending w1 = pending w ∧
  if ok response then
    result = (if waitOnCache
              then (match (run write w1).1 with
                    | Normal _ => Normal response
                    | Throw err => Throw err
                    end,
                    (run write w1).2)
              else (Normal response, in_flight write w1)) ∧
    ∀ w0,
      let entries := storage_entries (cacheName this) (caches w0) in
      let entries' := storage_entries (cacheName this) (caches (run write w0).2) in
      match write_failure this request cacheKey response w0 with
      | Some err => (run write w0).1 = Throw err ∧ entries' = entries
      | None => entries' = kept w0 key entries ++ [(key, response)]
      end
  else
    result = (if waitOnCache
              then Throw (ErrorFactory.createError "invalid-reponse-for-caching")
              else Normal response,
              w1).
Proof.
  intros Hthis Hnone Hfetch key write result.
  apply constructed_callbacks in Hthis as [Hcallbacks _].
  rewrite registry_of_plugins in Hcallbacks.
  assert (on_cacheWillUpdate (callbacks this) = None) as Hupdate.
  { rewrite Hcallbacks. cbn. unfold registered_of. by rewrite Hnone. }
  assert (on_cacheWillMatch (callbacks this) ≠ Some []) as Hwf.
  { rewrite Hcallbacks. cbn. apply registered_of_nonempty. }
  assert (cacheable this request response w1 = (Normal (ok response), w1))
    as Hcacheable.
  { unfold cacheable. by rewrite Hupdate. }
  destruct (quiet_result _ _ _ _ (quiet_fetch this request) Hfetch)
    as (Hc1 & _ & Hp1 & _).
  split; [done|]. do 2 (split; [unfold ok; intros ->; done|]).
  do 2 (split; [done|]). subst result.
  destruct (ok response) eqn:Hok.
  - split; [by apply (fetchAndCache_cacheable _ _ _ _ _ _ w1 w1)|].
    intros w0. apply (run_write_entries this request cacheKey response w0 Hwf).
  - by apply (fetchAndCache_not_cacheable _ _ _ _ _ _ w1 w1).
Qed.

Lemma default_cacheability_witness :
  let this := plain_wrapper in
  let request := GET "/a" in
  let response := found in
  let w := world ∅ (serving found) in
  let w1 := observed [NetworkFetch (GET "/a") None] w in
  let key := default request None in
  let write := write_of this request None response in
  let result := fetchAndCache this request false None w in
  cacheable this request response w1 = (Normal (ok response), w1) ∧
  (status response = 200%Z → ok response = true) ∧
  (status response = 404%Z → ok response = false) ∧
  caches w1 = caches w ∧ pending w1 = pending w ∧
  if ok response then
    result = (if false
              then (match (run write w1).1 with
                    | Normal _ => Normal response
                    | Throw err => Throw err
                    end,
                    (run write w1).2)
              else (Normal response, in_flight write w1)) ∧
    ∀ w0,
      let entries := storage_entries (cacheName this) (caches w0) in
      let entries' := storage_entries (cacheName this) (caches (run write w0).2) in
      match write_failure this request None response w0 with
      | Some err => (run write w0).1 = Throw err ∧ entries' = entries
      | None => entries' = kept w0 key entries ++ [(key, response)]
      end
  else
    result = (if false
              then Throw (ErrorFactory.createError "invalid-reponse-for-caching")
              else Normal response,
              w1).
Proof.
  apply (default_cacheability None None None None None plain_wrapper (GET "/a")
           false None (world ∅ (serving found)) found);
    reflexivity.
Defined.

(** C7 as it is stated fails: no [cacheWillUpdate] callback is registered
    and the response to a POST has the status 200, so it is judged
    cacheable, but the platform refuses the put under a Request that is not
    a GET: the awaited write fails, and the response is not in the cache
    when the call is over. *)
Lemma default_cacheability_counterexample :
  let result := fetchAndCache plain_wrapper (POST "/a") true None
                  (world ∅ (serving found)) in
  ¬ (status found = 200%Z →
     found ∈ map snd (storage_entries (cacheName plain_wrapper) (caches result.2))).
Proof.
  intros result claim. specialize (claim eq_refl).
  vm_compute in claim. by apply elem_of_nil in claim.
Qed.

(** The call for the POST fails with what the platform refused the put
    with, and leaves nothing in flight. *)
Example post_is_not_cached :
  let result := fetchAndCache plain_wrapper (POST "/a") true None
                  (world ∅ (serving found)) in
  result.1 = Throw (PlatformError "TypeError: Request method is unsupported") ∧
  caches result.2 = {[ "sw-runtime-caching" := [] ]} ∧
  pending result.2 = [].
Proof. repeat split. Qed.

(** A 200 response to a GET is in the cache once the write that was left
    in flight has run; after a 404 response nothing is in flight and the
    cache storage is as it was. *)
Example cached_200_not_404 :
  let after_200 := (fetchAndCache plain_wrapper (GET "/a") false None
                      (world ∅ (serving found))).2 in
  let after_404 := (fetchAndCache plain_wrapper (GET "/a") false None
                      (world ∅ (serving not_found))).2 in
  pending after_200 = [write_of plain_wrapper (GET "/a") None found] ∧
  caches (run (write_of plain_wrapper (GET "/a") None found) after_200).2 =
    {[ "sw-runtime-caching" := [(GET "/a", found)] ]} ∧
  pending after_404 = [] ∧ caches after_404 = ∅.
Proof. repeat split. Qed.

End FetchAndCacheClaims.

Section OldResponse.
Import RuntimeCaching.

(** C8, as amended. For a [fetchAndCache] that goes to the write, on a
    wrapper constructed from [plugins]: the write is run before the call
    returns or left in flight, and from whatever world it runs, the cache
    is looked up before the put exactly when a plugin has a
    [cacheDidUpdate] callback and the type of the response is not
    [opaque]. The [oldResponse] of the [cacheDidUpdate] callbacks is the
    outcome of that lookup: what [cache.match] finds for the request under
    the match options of the wrapper, put through the [cacheWillMatch]
    callback when a plugin has one; without the lookup it is none. The
    callbacks are called after a put that is not refused, in the order of
    the plugins, up to the first that throws; when the [cacheWillMatch]
    callback throws nothing is put and none is called. *)
Theorem cacheDidUpdate_oldResponse
    scope name plugins fo mo this request waitOnCache cacheKey w response w1 w2 :
  constructor scope name plugins fo mo = Normal this →
  fetch this request w = (Normal response, w1) →
  cacheable this request response w1 = (Normal true, w2) →
  let observers := omap cacheDidUpdate (default [] plugins) in
  let transforms := omap cacheWillMatch (default [] plugins) in
  let lookup := negb (String.eqb (type response) "opaque")
                && bool_decide (observers ≠ []) in
  let key := default request cacheKey in
  let write := write_of this request cacheKey response in
  (fetchAndCache this request waitOnCache cacheKey w).2 =
    (if waitOnCache then (run write w2).2 else in_flight write w2) ∧
  ∀ w0,
    let cached := entries_match (cache_matches w0) request (matchOptions this)
                    (storage_entries (cacheName this) (caches w0)) in
    let outcome := if lookup
                   then match transforms with
                        | transform :: _ => transform cached
                        | [] => Normal cached
                        end
                   else Normal None in
    ∃ lookups updates,
      trace (run write w0).2 = trace w0 ++ lookups ++ updates ∧
      lookups = (if lookup
                 then CacheMatch (cacheName this) request (matchOptions this) ::
                      match transforms with
                      | _ :: _ => [CallCacheWillMatch cached]
                      | [] => []
                      end
                 else []) ∧
      updates = match outcome with
                | Throw _ => []
                | Normal oldResponse =>
                    CachePut (cacheName this) key response ::
                    match cache_refuses w0 key response with
                    | Some _ => []
                    | None =>
                        map (λ callback,
                               CallCacheDidUpdate (observer_name callback)
                                 (cacheName this) oldResponse response)
                          (called observers (cacheName this, oldResponse, response))
                    end
                end.
Proof.
  intros Hthis Hfetch Hcacheable observers transforms lookup key write.
  apply constructed_callbacks in Hthis as [Hcallbacks _].
  rewrite registry_of_plugins in Hcallbacks.
  assert (on_cacheWillMatch (callbacks this) ≠ Some []) as Hwf.
  { rewrite Hcallbacks. cbn. apply registered_of_nonempty. }
  split.
  { rewrite (fetchAndCache_cacheable _ _ _ _ _ _ _ _ Hfetch Hcacheable).
    by destruct waitOnCache. }
  intros w0 cached outcome.
  assert (looks_up this response = lookup) as Hlookup.
  { unfold looks_up. rewrite Hcallbacks. cbn [on_cacheDidUpdate].
    by rewrite registered_of_is_Some. }
  assert (default [] (on_cacheDidUpdate (callbacks this)) = observers) as Hobservers.
  { rewrite Hcallbacks. cbn [on_cacheDidUpdate]. apply default_registered_of. }
  assert (lookup_events this request cached =
          CacheMatch (cacheName this) request (matchOptions this) ::
          match transforms with
          | _ :: _ => [CallCacheWillMatch cached]
          | [] => []
          end) as Hevents.
  { unfold lookup_events. rewrite Hcallbacks. cbn [on_cacheWillMatch].
    unfold registered_of. fold transforms. by destruct transforms. }
  assert (matched this cached =
          match transforms with
          | transform :: _ => transform cached
          | [] => Normal cached
          end) as Hmatched.
  { unfold matched. rewrite Hcallbacks. cbn [on_cacheWillMatch].
    unfold registered_of. fold transforms. by destruct transforms. }
  subst write. unfold write_of, run, clone.
  rewrite cachingComplete_spec by done. fold key cached (found_by this request w0).
  change (found_by this request w0) with cached.
  rewrite Hlookup, Hevents, Hmatched. subst outcome.
  unfold put_and_notify, update_events. rewrite Hobservers.
  eexists _, _. split; [|split; reflexivity].
  destruct lookup;
    [destruct transforms as [|transform rest];
     [|destruct (transform cached) as [oldResponse|err]]|];
    cbn [cache_refuses observed set_caches];
    try destruct (cache_refuses w0 key response);
    cbn [snd trace observed set_caches];
    by rewrite <- ?app_assoc, ?app_nil_r.
Qed.

Lemma cacheDidUpdate_oldResponse_witness :
  let this := notifying_wrapper in
  let request := GET "/a" in
  let response := new_image in
  let w := world holding_old_image (serving new_image) in
  let w2 := observed [NetworkFetch (GET "/a") None;
                      CallCacheWillUpdate (GET "/a") new_image] w in
  let observers := omap cacheDidUpdate (default [] (Some [notifier])) in
  let transforms := omap cacheWillMatch (default [] (Some [notifier])) in
  let lookup := negb (String.eqb (type response) "opaque")
                && bool_decide (observers ≠ []) in
  let key := default request None in
  let write := write_of this request None response in
  (fetchAndCache this request true None w).2 =
    (if true then (run write w2).2 else in_flight write w2) ∧
  ∀ w0,
    let cached := entries_match (cache_matches w0) request (matchOptions this)
                    (storage_entries (cacheName this) (caches w0)) in
    let outcome := if lookup
                   then match transforms with
                        | transform :: _ => transform cached
                        | [] => Normal cached
                        end
                   else Normal None in
    ∃ lookups updates,
      trace (run write w0).2 = trace w0 ++ lookups ++ updates ∧
      lookups = (if lookup
                 then CacheMatch (cacheName this) request (matchOptions this) ::
                      match transforms with
                      | _ :: _ => [CallCacheWillMatch cached]
                      | [] => []
                      end
                 else []) ∧
      updates = match outcome with
                | Throw _ => []
                | Normal oldResponse =>
                    CachePut (cacheName this) key response ::
                    match cache_refuses w0 key response with
                    | Some _ => []
                    | None =>
                        map (λ callback,
                               CallCacheDidUpdate (observer_name callback)
                                 (cacheName this) oldResponse response)
                          (called observers (cacheName this, oldResponse, response))
                    end
                end.
Proof.
  apply (cacheDidUpdate_oldResponse None (Some "images") (Some [notifier]) None None
           notifying_wrapper (GET "/a") true None
           (world holding_old_image (serving new_image)) new_image
           (observed [NetworkFetch (GET "/a") None]
              (world holding_old_image (serving new_image))));
    reflexivity.
Defined.

(** When the cache holds a response and the new one is not opaque, the
    callback gets the response the cache held. *)
Example oldResponse_of_replaced_entry :
  fetchAndCache notifying_wrapper (GET "/a") true None
    (world holding_old_image (serving new_image)) =
  (Normal new_image,
   {| caches := {[ "images" := [(GET "/a", new_image)] ]};
      cache_matches := same_url; cache_refuses := get_only;
      network := serving new_image;
      trace := [NetworkFetch (GET "/a") None;
                CallCacheWillUpdate (GET "/a") new_image;
                CacheMatch "images" (GET "/a") None;
                CachePut "images" (GET "/a") new_image;
                CallCacheDidUpdate "notify" "images" (Some old_image) new_image];
      pending := [] |}).
Proof. reflexivity. Qed.

(** An opaque response is put without the lookup, and the callback gets no
    old response. *)
Example oldResponse_of_opaque_response :
  trace (fetchAndCache notifying_wrapper (GET "/a") true None
           (world holding_old_image (serving opaque_image))).2 =
  [NetworkFetch (GET "/a") None;
   CallCacheWillUpdate (GET "/a") opaque_image;
   CachePut "images" (GET "/a") opaque_image;
   CallCacheDidUpdate "notify" "images" None opaque_image].
Proof. reflexivity. Qed.

(** C8 as it is stated fails: the cache holds a response for the request
    before the put and the new response is not opaque, so the cache is
    looked up; a plugin has a [cacheWillMatch] callback that lets no cached
    response through, and the [cacheDidUpdate] callback is called with no
    [oldResponse]. *)
Lemma cacheDidUpdate_oldResponse_counterexample :
  let w := world holding_old_image (serving new_image) in
  let held := entries_match (cache_matches w) (GET "/a") None
                (storage_entries "images" (caches w)) in
  ¬ (type new_image ≠ "opaque" →
     Forall (λ oldResponse, oldResponse = held)
       (cacheDidUpdate_oldResponses
          (trace (fetchAndCache forgetful_notifying_wrapper (GET "/a") true None
                    w).2))).
Proof.
  intros w held claim. specialize (claim ltac:(done)).
  assert (cacheDidUpdate_oldResponses
            (trace (fetchAndCache forgetful_notifying_wrapper (GET "/a") true None
                      w).2)
          = [None]) as Hcalls by reflexivity.
  rewrite Hcalls in claim. apply Forall_cons in claim as [claim _].
  assert (held = Some old_image) as Hheld by reflexivity.
  rewrite Hheld in claim. discriminate claim.
Qed.

End OldResponse.

(** ** The expiration plugin: freshness *)

Section Freshness.
Import CacheExpiration.

(** C5. For a plugin whose [maxAgeSeconds] is a number other than 0 and a
    cached response, with a [Date] for which the empty string is no date:
    the response is fresh when it has no [Date] header or the header parses
    to NaN, and otherwise exactly when
    [parsedDate + maxAgeSeconds * 1000 >= now]; [cacheWillMatch] returns the
    response when it is fresh and [null] when it is not. *)
Theorem cacheWillMatch_fresh this seconds response now w :
  maxAgeSeconds this = JSNumber seconds →
  seconds ≠ 0%Z →
  Date_parse w "" = None →
  let now' := default (clock w) now in
  let fresh := match headers_get response "date" with
               | None => true
               | Some dateHeader =>
                   match Date_parse w dateHeader with
                   | None => true
                   | Some parsedDate => (now' <=? parsedDate + seconds * 1000)%Z
                   end
               end in
  isResponseFresh this (Some response) now w = (Normal fresh, w) ∧
  cacheWillMatch this (Some response) now w =
    (Normal (if fresh then Some response else None), w).
Proof.
  intros Hage Hseconds Hempty now' fresh.
  assert (isResponseFresh this (Some response) now w = (Normal fresh, w)) as Hfresh.
  { unfold isResponseFresh, fresh. rewrite Hage. cbn [truthy ToNumber].
    destruct (Z.eqb_spec seconds 0) as [|_]; [done|]. cbn [negb].
    destruct (headers_get response "date") as [dateHeader|]; [|done].
    destruct (String.eqb_spec dateHeader "") as [->|_]; cbn [negb].
    { by rewrite Hempty. }
    assert (match now with
            | Some now => ret now
            | None => gets clock
            end w = (Normal now', w)) as Hnow by by destruct now.
    rewrite (bind_normal _ _ _ _ _ Hnow).
    unfold bind, gets. cbn [fst snd].
    destruct (Date_parse w dateHeader) as [parsedDate|]; cbn [JS.add JS.mul JS.lt];
      [|done].
    rewrite (Z.leb_antisym (parsedDate + seconds * 1000) now').
    by destruct (parsedDate + seconds * 1000 <? now')%Z. }
  split; [done|]. unfold cacheWillMatch.
  rewrite (bind_normal _ _ _ _ _ Hfresh). by destruct fresh.
Qed.

Lemma cacheWillMatch_fresh_witness :
  let fresh := match headers_get (dated ten_seconds_in) "date" with
               | None => true
               | Some dateHeader =>
                   match Date_parse at_30s dateHeader with
                   | None => true
                   | Some parsedDate =>
                       (default (clock at_30s) None <=? parsedDate + 10 * 1000)%Z
                   end
               end in
  isResponseFresh ten_seconds (Some (dated ten_seconds_in)) None at_30s =
    (Normal fresh, at_30s) ∧
  cacheWillMatch ten_seconds (Some (dated ten_seconds_in)) None at_30s =
    (Normal (if fresh then Some (dated ten_seconds_in) else None), at_30s).
Proof.
  apply (cacheWillMatch_fresh ten_seconds 10 (dated ten_seconds_in) None at_30s);
    [reflexivity|lia|reflexivity].
Defined.

(** A response dated 10 s is stale at 30 s and fresh at 20 s when the
    maximum age is 10 s; one whose date does not parse is fresh. *)
Example stale_fresh_unparsed :
  (cacheWillMatch ten_seconds (Some (dated ten_seconds_in)) None at_30s).1 = Normal None ∧
  (cacheWillMatch ten_seconds (Some (dated ten_seconds_in)) (Some 20000%Z) at_30s).1 =
    Normal (Some (dated ten_seconds_in)) ∧
  (cacheWillMatch ten_seconds (Some (dated "yesterday")) None at_30s).1 =
    Normal (Some (dated "yesterday")).
Proof. repeat split. Qed.

End Freshness.

(** ** The expiration plugin: the entries over the maximum *)

Section ExtraEntries.
Import CacheExpiration.

Lemma index_insert_Permutation r l : index_insert r l ≡ₚ r :: l.
Proof.
  induction l as [|r' l IH]; cbn [index_insert]; [done|].
  destruct (index_le r r'); [done|].
  rewrite IH. apply Permutation_swap.
Qed.

Lemma index_le_false r1 r2 : index_le r1 r2 = false → by_timestamp r2 r1.
Proof.
  unfold index_le, by_timestamp. intros Hle.
  apply orb_false_iff in Hle as [Hlt _]. lia.
Qed.

Lemma index_le_true r1 r2 : index_le r1 r2 = true → by_timestamp r1 r2.
Proof.
  unfold index_le, by_timestamp. intros Hle.
  apply orb_true_iff in Hle as [Hlt|Heq]; [lia|].
  apply andb_true_iff in Heq as [Heq _]. lia.
Qed.

Lemma index_insert_sorted r l :
  StronglySorted by_timestamp l → StronglySorted by_timestamp (index_insert r l).
Proof.
  induction 1 as [|r' l Hsorted IH Hall]; cbn [index_insert].
  - repeat constructor.
  - destruct (index_le r r') eqn:Hle.
    + apply index_le_true in Hle. constructor; [by constructor|].
      constructor; [done|].
      eapply Forall_impl; [exact Hall|]. unfold by_timestamp in *. intros; lia.
    + apply index_le_false in Hle. constructor; [done|].
      rewrite index_insert_Permutation. by constructor.
Qed.

Lemma timestampIndex_Permutation (store : Store) :
  timestampIndex store ≡ₚ map_to_list store.
Proof.
  unfold timestampIndex. induction (map_to_list store) as [|r l IH]; [done|].
  cbn [foldr]. by rewrite index_insert_Permutation, IH.
Qed.

Lemma timestampIndex_sorted (store : Store) :
  StronglySorted by_timestamp (timestampIndex store).
Proof.
  unfold timestampIndex. induction (map_to_list store) as [|r l IH]; cbn [foldr].
  - constructor.
  - by apply index_insert_sorted.
Qed.

Lemma timestampIndex_length (store : Store) :
  length (timestampIndex store) = size store.
Proof. by rewrite timestampIndex_Permutation, length_map_to_list. Qed.

(** The cursor walk of [findExtraEntries]: with [count] records, a maximum
    of [limit] and [urls] collected while more than [limit] remain, the
    walk adds the URLs of the records up to where [limit] remain. *)
Lemma iterateCursor_extra (count limit : Z) index urls :
  (limit < count - Z.of_nat (length urls))%Z →
  iterateCursor
    (λ cursor urls,
       match cursor with
       | None => (urls, false)
       | Some (url, _) =>
           let urls := urls ++ [url] in
           (urls, JS.gt (Some (count - Z.of_nat (length urls))%Z) (Some limit))
       end) index urls =
  urls ++ map fst (take (Z.to_nat (count - limit - Z.of_nat (length urls))) index).
Proof.
  revert urls. induction index as [|[url timestamp] index IH]; intros urls Hmore.
  - cbn. by rewrite take_nil, app_nil_r.
  - cbn [iterateCursor]. cbn [JS.gt JS.lt].
    destruct (Z.ltb_spec limit (count - Z.of_nat (length (urls ++ [url]))))
      as [Hcontinue|Hstop].
    + rewrite IH by done. rewrite length_app in *. cbn [length] in *.
      replace (Z.to_nat (count - limit - Z.of_nat (length urls)))
        with (S (Z.to_nat (count - limit - Z.of_nat (length urls + 1)))) by lia.
      cbn [take map fst]. by rewrite <- app_assoc.
    + rewrite length_app in Hstop. cbn [length] in Hstop.
      replace (Z.to_nat (count - limit - Z.of_nat (length urls))) with 1 by lia.
      cbn [take map fst]. by rewrite take_0.
Qed.

(** What [findExtraEntries] returns when [maxEntries] is a number. *)
Lemma findExtraEntries_take this cacheName w limit :
  maxEntries this = JSNumber limit →
  let store := store_of (idbId cacheName) w in
  (findExtraEntries this cacheName w).1 =
  Normal (map fst (take (Z.to_nat (Z.of_nat (size store) - limit))
                     (timestampIndex store))).
Proof.
  intros Hmax store. unfold findExtraEntries, getDB, bind, modify, gets, ret.
  cbn [fst snd].
  assert (store_of (idbId cacheName)
            (set_databases
               (λ dbs, match dbs !! idbId cacheName with
                       | Some _ => dbs
                       | None => <[idbId cacheName:=∅]> dbs
                       end) w) = store) as ->.
  { unfold store, store_of, set_databases. cbn [databases].
    destruct (databases w !! idbId cacheName) eqn:Hdb; [by rewrite Hdb|].
    by rewrite lookup_insert_eq. }
  rewrite Hmax. cbn [ToNumber]. unfold JS.gt at 1. cbn [JS.lt].
  destruct (Z.ltb_spec limit (Z.of_nat (size store))) as [Hover|Hwithin]; cbn [fst].
  - rewrite iterateCursor_extra by (cbn [length]; lia).
    cbn [length app]. by rewrite Z.sub_0_r.
  - replace (Z.to_nat (Z.of_nat (size store) - limit)) with 0 by lia.
    by rewrite take_0.
Qed.

(** C4. For a plugin with [maxEntries = N] and a store of [N + M] records,
    [M > 0], [findExtraEntries] returns the URLs of the first [M] records of
    the timestamp index: [M] URLs, in ascending order of timestamp, none
    stored later than a record that is left; with at most [N] records it
    returns the empty list. The index holds the records of the store. *)
Theorem findExtraEntries_least_recent this cacheName w (N M : nat) :
  maxEntries this = JSNumber (Z.of_nat N) →
  let store := store_of (idbId cacheName) w in
  let index := timestampIndex store in
  (size store = N + M → 0 < M →
   (findExtraEntries this cacheName w).1 = Normal (map fst (take M index)) ∧
   length (take M index) = M ∧
   StronglySorted by_timestamp (take M index) ∧
   ∀ r r', r ∈ take M index → r' ∈ drop M index → by_timestamp r r') ∧
  (size store ≤ N → (findExtraEntries this cacheName w).1 = Normal []) ∧
  index ≡ₚ map_to_list store.
Proof.
  intros Hmax store index. split; [|split].
  - intros Hsize HM.
    pose proof (timestampIndex_sorted store) as Hsorted. fold index in Hsorted.
    rewrite <- (take_drop M index) in Hsorted.
    rewrite (findExtraEntries_take this cacheName w _ Hmax). fold store index.
    replace (Z.to_nat (Z.of_nat (size store) - Z.of_nat N)) with M by lia.
    split; [done|]. split.
    { rewrite length_take. unfold index. rewrite timestampIndex_length. lia. }
    split; [by eapply StronglySorted_app_1_l|].
    intros r r' Hr Hr'. by eapply StronglySorted_app_1_elem_of.
  - intros Hsize. rewrite (findExtraEntries_take this cacheName w _ Hmax).
    fold store. replace (Z.to_nat (Z.of_nat (size store) - Z.of_nat N)) with 0 by lia.
    by rewrite take_0.
  - apply timestampIndex_Permutation.
Qed.

End ExtraEntries.

Section ExtraEntriesExamples.
Import CacheExpiration.

Lemma findExtraEntries_least_recent_witness :
  let index := timestampIndex (store_of (idbId "pages") three_pages) in
  (findExtraEntries two_entries "pages" three_pages).1 = Normal (map fst (take 1 index)) ∧
  length (take 1 index) = 1 ∧
  StronglySorted by_timestamp (take 1 index) ∧
  ∀ r r', r ∈ take 1 index → r' ∈ drop 1 index → by_timestamp r r'.
Proof.
  apply (proj1 (findExtraEntries_least_recent two_entries "pages" three_pages 2 1
                  eq_refl)).
  - vm_compute. reflexivity.
  - lia.
Defined.

Example findExtraEntries_three_pages :
  timestampIndex (store_of (idbId "pages") three_pages) =
    [("/a", 1000%Z); ("/b", 2000%Z); ("/c", 3000%Z)] ∧
  (findExtraEntries two_entries "pages" three_pages).1 = Normal ["/a"] ∧
  (findExtraEntries {| maxEntries := JSNumber 1; maxAgeSeconds := JSUndefined |}
     "pages" three_pages).1 = Normal ["/a"; "/b"] ∧
  (findExtraEntries {| maxEntries := JSNumber 3; maxAgeSeconds := JSUndefined |}
     "pages" three_pages).1 = Normal [].
Proof. repeat split; vm_compute; reflexivity. Qed.

End ExtraEntriesExamples.

(** ** The expiration plugin: expiring entries *)

Section Expire.
Import CacheExpiration.

Lemma store_of_opened cacheName w :
  store_of (idbId cacheName) (opened cacheName w) = store_of (idbId cacheName) w.
Proof.
  unfold store_of, opened, set_databases. cbn [databases].
  destruct (databases w !! idbId cacheName) eqn:Hdb; [by rewrite Hdb|].
  by rewrite lookup_insert_eq.
Qed.

Lemma untouched_refl cacheName w : untouched cacheName w w.
Proof. done. Qed.

Lemma untouched_trans cacheName w1 w2 w3 :
  untouched cacheName w1 w2 → untouched cacheName w2 w3 → untouched cacheName w1 w3.
Proof.
  intros (Hs1 & Hc1 & Hp1) (Hs2 & Hc2 & Hp2). repeat split.
  - by rewrite Hs2.
  - intros. by rewrite Hc2.
  - by rewrite Hp2.
Qed.

Lemma untouched_opened cacheName w : untouched cacheName w (opened cacheName w).
Proof. split; [apply store_of_opened|done]. Qed.

Lemma stored_index (store : Store) url timestamp :
  (url, timestamp) ∈ timestampIndex store → stored store url.
Proof.
  rewrite timestampIndex_Permutation, elem_of_map_to_list. by eexists.
Qed.

(** A cursor walk that only adds URLs of the records it is on collects URLs
    of the index. *)
Lemma iterateCursor_collects (P : string → Prop)
    (callback : option (string * Z) → list string → list string * bool)
    index urls :
  (∀ cursor urls, Forall P urls →
     match cursor with
     | Some (url, _) => P url
     | None => True
     end → Forall P (callback cursor urls).1) →
  Forall (λ r, P r.1) index →
  Forall P urls →
  Forall P (iterateCursor callback index urls).
Proof.
  intros Hcallback Hindex. revert urls.
  induction Hindex as [|[url timestamp] index Hurl Hindex IH]; intros urls Hurls.
  - cbn. by apply (Hcallback None).
  - cbn [iterateCursor].
    pose proof (Hcallback (Some (url, timestamp)) urls Hurls Hurl) as Hstep.
    destruct (callback (Some (url, timestamp)) urls) as [urls' continue].
    destruct continue; [by apply IH|done].
Qed.

Lemma index_stored (store : Store) :
  Forall (λ r, stored store r.1) (timestampIndex store).
Proof. apply Forall_forall. intros [url timestamp]. apply stored_index. Qed.

Lemma findOldEntries_stored this cacheName now w :
  ∃ urls w',
    findOldEntries this cacheName now w = (Normal urls, w') ∧
    Forall (stored (store_of (idbId cacheName) w)) urls ∧
    untouched cacheName w w'.
Proof.
  eexists _, (opened cacheName w). split; [reflexivity|].
  split; [|apply untouched_opened].
  fold (opened cacheName w). rewrite store_of_opened.
  apply iterateCursor_collects; [|apply index_stored|constructor].
  intros [[url timestamp]|] urls Hurls Hurl; cbn [fst]; [|done].
  destruct (JS.lt _ _); [|done].
  apply Forall_app. by repeat constructor.
Qed.

Lemma findExtraEntries_stored this cacheName w :
  ∃ urls w',
    findExtraEntries this cacheName w = (Normal urls, w') ∧
    Forall (stored (store_of (idbId cacheName) w)) urls ∧
    untouched cacheName w w'.
Proof.
  unfold findExtraEntries, getDB, bind, modify, gets, ret. cbn [fst snd].
  fold (opened cacheName w). rewrite store_of_opened.
  destruct (JS.gt _ _).
  - eexists _, _. split; [reflexivity|]. split; [|apply untouched_opened].
    apply iterateCursor_collects; [|apply index_stored|constructor].
    intros [[url timestamp]|] urls Hurls Hurl; cbn [fst]; [|done].
    apply Forall_app. by repeat constructor.
  - eexists _, _. split; [reflexivity|]. split; [constructor|apply untouched_opened].
Qed.

Lemma Set_values_subseteq seen urls : Set_values seen urls ⊆ urls.
Proof.
  revert seen. induction urls as [|url urls IH]; intros seen; cbn [Set_values];
    [done|].
  case_bool_decide.
  - by apply list_subseteq_cons.
  - by apply list_subseteq_skip.
Qed.

Lemma response_at_caches_open name name' url w :
  response_at name url (set_caches (caches_open name') w) = response_at name url w.
Proof.
  unfold response_at, set_caches. cbn [caches].
  unfold cache_match, cache_of, caches_open.
  destruct (caches w !! name') eqn:Hname'; [done|].
  destruct (decide (name' = name)) as [->|Hne].
  - by rewrite lookup_insert_eq, Hname'.
  - by rewrite lookup_insert_ne.
Qed.

(** [deleteFromCacheAndIDB] resolves with the deletions asked for or still
    ahead, none of them done. *)
Lemma deleteFromCacheAndIDB_pending this cacheName urls w :
  ∃ w',
    deleteFromCacheAndIDB this cacheName urls w = (Normal tt, w') ∧
    store_of (idbId cacheName) w' = store_of (idbId cacheName) w ∧
    (∀ name url, response_at name url w' = response_at name url w) ∧
    pending w' =
      pending w ++
      map (λ url, [OpCacheDelete cacheName url; OpStoreDelete cacheName url]) urls.
Proof.
  unfold deleteFromCacheAndIDB. destruct urls as [|url urls]; cbn [length Nat.ltb Nat.leb].
  - eexists. split; [reflexivity|]. cbn [map]. by rewrite app_nil_r.
  - eexists. split; [reflexivity|]. cbn [snd]. split; [|split].
    + fold (opened cacheName (set_caches (caches_open cacheName) w)).
      unfold set_pending, store_of. cbn [databases].
      fold (store_of (idbId cacheName)
              (opened cacheName (set_caches (caches_open cacheName) w))).
      by rewrite store_of_opened.
    + intros name url'. apply (response_at_caches_open name cacheName url' w).
    + reflexivity.
Qed.

End Expire.

Section ExpireEntries.
Import CacheExpiration.

(** The steps of [expireEntries]: the old and the extra entries are URLs of
    records of the store, finding them touches nothing, and the URLs without
    their duplicates go to [deleteFromCacheAndIDB]. *)
Lemma expireEntries_steps this cacheName now w :
  ∃ oldEntries extraEntries w2 w3,
    Forall (stored (store_of (idbId cacheName) w)) (oldEntries ++ extraEntries) ∧
    untouched cacheName w w2 ∧
    deleteFromCacheAndIDB this cacheName
      (Set_values [] (oldEntries ++ extraEntries)) w2 = (Normal tt, w3) ∧
    expireEntries this cacheName now w =
      (Normal (Set_values [] (oldEntries ++ extraEntries)), w3).
Proof.
  unfold expireEntries.
  assert (∃ now', match now with
                  | Some now => ret now
                  | None => gets clock
                  end w = (Normal now', w)) as [now' Hnow]
    by (destruct now; by eexists).
  rewrite (bind_normal _ _ _ _ _ Hnow).
  assert (∃ oldEntries w1,
            (if truthy (maxAgeSeconds this)
             then findOldEntries this cacheName now'
             else ret []) w = (Normal oldEntries, w1) ∧
            Forall (stored (store_of (idbId cacheName) w)) oldEntries ∧
            untouched cacheName w w1) as (oldEntries & w1 & Hold & Hstored1 & Hw1).
  { destruct (truthy (maxAgeSeconds this)); [apply findOldEntries_stored|].
    eexists _, _. split; [reflexivity|]. split; [constructor|apply untouched_refl]. }
  rewrite (bind_normal _ _ _ _ _ Hold).
  assert (∃ extraEntries w2,
            (if truthy (maxEntries this)
             then findExtraEntries this cacheName
             else ret []) w1 = (Normal extraEntries, w2) ∧
            Forall (stored (store_of (idbId cacheName) w1)) extraEntries ∧
            untouched cacheName w1 w2) as (extraEntries & w2 & Hextra & Hstored2 & Hw2).
  { destruct (truthy (maxEntries this)); [apply findExtraEntries_stored|].
    eexists _, _. split; [reflexivity|]. split; [constructor|apply untouched_refl]. }
  rewrite (bind_normal _ _ _ _ _ Hextra).
  destruct (deleteFromCacheAndIDB_pending this cacheName
              (Set_values [] (oldEntries ++ extraEntries)) w2)
    as (w3 & Hdelete & _).
  rewrite (bind_normal _ _ _ _ _ Hdelete).
  exists oldEntries, extraEntries, w2, w3. split; [|split; [|done]].
  - apply Forall_app. split; [done|].
    destruct Hw1 as [Hstore1 _]. by rewrite Hstore1 in Hstored2.
  - by eapply untouched_trans.
Qed.

(** C1, as the code has it. [expireEntries] resolves with the URLs to
    expire while, for every one of them, the timestamp record is still in
    the index and the response cache is as it was: the deletions are left
    to promises that nothing waits for. *)
Theorem expireEntries_returns_before_deleting this cacheName now w :
  ∃ urls w',
    expireEntries this cacheName now w = (Normal urls, w') ∧
    (∀ url, url ∈ urls →
       is_Some (timestamp_at cacheName url w') ∧
       timestamp_at cacheName url w' = timestamp_at cacheName url w) ∧
    (∀ name url, response_at name url w' = response_at name url w) ∧
    pending w' =
      pending w ++
      map (λ url, [OpCacheDelete cacheName url; OpStoreDelete cacheName url]) urls.
Proof.
  destruct (expireEntries_steps this cacheName now w)
    as (oldEntries & extraEntries & w2 & w3 & Hstored & Hw2 & Hdelete & Hexpire).
  destruct (deleteFromCacheAndIDB_pending this cacheName
              (Set_values [] (oldEntries ++ extraEntries)) w2)
    as (w3' & Hdelete' & Hstore3 & Hcaches3 & Hpending3).
  rewrite Hdelete in Hdelete'. injection Hdelete' as <-.
  destruct Hw2 as (Hstore2 & Hcaches2 & Hpending2).
  eexists _, w3. split; [exact Hexpire|]. split; [|split].
  - intros url Hurl. unfold timestamp_at. rewrite Hstore3, Hstore2.
    split; [|done].
    apply Set_values_subseteq in Hurl. by eapply Forall_forall in Hstored.
  - intros name url. by rewrite Hcaches3, Hcaches2.
  - by rewrite Hpending3, Hpending2.
Qed.

(** With room for two entries and three stored, [expireEntries] resolves
    with the URL of the oldest while its timestamp record and its response
    are still there. *)
Lemma expireEntries_returns_before_deleting_witness :
  ∃ w',
    expireEntries two_entries "pages" None three_pages = (Normal ["/a"], w') ∧
    timestamp_at "pages" "/a" w' = Some 1000%Z ∧
    response_at "pages" "/a" w' = Some (page "/a") ∧
    pending w' = [[OpCacheDelete "pages" "/a"; OpStoreDelete "pages" "/a"]].
Proof.
  destruct (expireEntries_returns_before_deleting two_entries "pages" None three_pages)
    as (urls & w' & Hexpire & Hrecords & Hresponses & Hpending).
  assert ((expireEntries two_entries "pages" None three_pages).1 = Normal ["/a"])
    as Hurls by (vm_compute; reflexivity).
  rewrite Hexpire in Hurls. cbn [fst] in Hurls. injection Hurls as ->.
  exists w'. split; [done|]. split; [|split].
  - destruct (Hrecords "/a" ltac:(by left)) as [_ Hsame]. rewrite Hsame.
    vm_compute. reflexivity.
  - rewrite Hresponses. vm_compute. reflexivity.
  - rewrite Hpending. reflexivity.
Defined.

Lemma response_at_perform name url op w :
  response_at name url w = None → response_at name url (perform op w) = None.
Proof.
  destruct op as [cacheName url'|cacheName url']; [|done].
  unfold response_at, perform, set_caches. cbn [caches].
  unfold cache_match, cache_of, cache_delete.
  destruct (caches w !! cacheName) as [cache|] eqn:Hcache; [|done].
  destruct (decide (cacheName = name)) as [->|Hne].
  - rewrite Hcache, lookup_insert_eq. cbn. intros Hnone.
    rewrite lookup_delete. by case_decide.
  - by rewrite lookup_insert_ne.
Qed.

Lemma response_at_deleted name url w :
  response_at name url (perform (OpCacheDelete name url) w) = None.
Proof.
  unfold response_at, perform, set_caches. cbn [caches].
  unfold cache_match, cache_of, cache_delete.
  destruct (caches w !! name) as [cache|] eqn:Hcache.
  - rewrite lookup_insert_eq. cbn. apply lookup_delete_eq.
  - by rewrite Hcache.
Qed.

Lemma timestamp_at_perform name url op w :
  timestamp_at name url w = None → timestamp_at name url (perform op w) = None.
Proof.
  destruct op as [cacheName url'|cacheName url']; [done|].
  unfold timestamp_at, perform, set_databases, store_of. cbn [databases].
  destruct (databases w !! idbId cacheName) as [store|] eqn:Hstore; [|done].
  destruct (decide (idbId cacheName = idbId name)) as [Heq|Hne].
  - rewrite <- Heq, Hstore, lookup_insert_eq. cbn. intros Hnone.
    rewrite lookup_delete. by case_decide.
  - by rewrite lookup_insert_ne.
Qed.

Lemma timestamp_at_deleted name url w :
  timestamp_at name url (perform (OpStoreDelete name url) w) = None.
Proof.
  unfold timestamp_at, perform, set_databases, store_of. cbn [databases].
  destruct (databases w !! idbId name) as [store|] eqn:Hstore.
  - rewrite lookup_insert_eq. cbn. apply lookup_delete_eq.
  - by rewrite Hstore.
Qed.

Lemma settle_deletes schedule name url w :
  (OpCacheDelete name url ∈ schedule →
   response_at name url (settle schedule w) = None) ∧
  (OpStoreDelete name url ∈ schedule →
   timestamp_at name url (settle schedule w) = None).
Proof.
  unfold settle.
  change (response_at name url (set_pending (λ _, []) ?w))
    with (response_at name url w).
  change (timestamp_at name url (set_pending (λ _, []) ?w))
    with (timestamp_at name url w).
  induction schedule as [|op schedule IH] using rev_ind; [set_solver|].
  rewrite foldl_snoc. destruct IH as [IHcache IHstore].
  split; intros [Hin| <-%list_elem_of_singleton]%elem_of_app.
  - by apply response_at_perform, IHcache.
  - apply response_at_deleted.
  - by apply timestamp_at_perform, IHstore.
  - apply timestamp_at_deleted.
Qed.

(** X16. Once the event loop has taken the promises [expireEntries] left behind
    to their end, in whatever order, the response cache has no response and
    the index no timestamp record for any of the URLs it resolved with. *)
Theorem expireEntries_settled this cacheName now w urls w' schedule :
  expireEntries this cacheName now w = (Normal urls, w') →
  (∀ promise op, promise ∈ pending w' → op ∈ promise → op ∈ schedule) →
  ∀ url, url ∈ urls →
    response_at cacheName url (settle schedule w') = None ∧
    timestamp_at cacheName url (settle schedule w') = None.
Proof.
  intros Hexpire Hschedule url Hurl.
  destruct (expireEntries_steps this cacheName now w)
    as (oldEntries & extraEntries & w2 & w3 & _ & _ & Hdelete & Hexpire').
  rewrite Hexpire in Hexpire'. injection Hexpire' as -> ->.
  destruct (deleteFromCacheAndIDB_pending this cacheName
              (Set_values [] (oldEntries ++ extraEntries)) w2)
    as (w3' & Hdelete' & _ & _ & Hpending).
  rewrite Hdelete in Hdelete'. injection Hdelete' as <-.
  assert ([OpCacheDelete cacheName url; OpStoreDelete cacheName url] ∈ pending w3)
    as Hpromise.
  { rewrite Hpending. apply elem_of_app. right.
    apply list_elem_of_fmap. by exists url. }
  split; apply settle_deletes, (Hschedule _ _ Hpromise); set_solver.
Qed.

(** With room for two entries, and [/a], [/b], [/c] stored in that order,
    the cache and the index hold [/b] and [/c] once the deletions are over. *)
Example expire_three_pages :
  let w' := (expireEntries two_entries "pages" None three_pages).2 in
  let final := settle (concat (pending w')) w' in
  caches final = {[ "pages" := {[ "/b" := page "/b"; "/c" := page "/c" ]} ]} ∧
  databases final = {[ idbId "pages" := {[ "/b" := 2000%Z; "/c" := 3000%Z ]} ]}.
Proof. split; vm_compute; reflexivity. Qed.

End ExpireEntries.

(** * Further properties of the request wrapper *)

Section DefaultCacheName.
Import RuntimeCaching.

Lemma append_inj_r (prefix s1 s2 : string) :
  prefix +:+ s1 = prefix +:+ s2 → s1 = s2.
Proof.
  induction prefix as [|c prefix IH]; cbn; [done|].
  intros [= H]. by apply IH.
Qed.

(** X1. The default cache names of workers of different scopes differ, and
    differ from the name of a worker without registration; a wrapper
    constructed without a cache name, or with the empty one, gets the
    default name, and one constructed with another name gets that name. *)
Theorem default_cache_names scope name plugins fo mo this :
  constructor scope name plugins fo mo = Normal this →
  (∀ scope1 scope2,
     defaultCacheName (Some scope1) = defaultCacheName (Some scope2) →
     scope1 = scope2) ∧
  (∀ scope1, defaultCacheName (Some scope1) ≠ defaultCacheName None) ∧
  (name = None ∨ name = Some "" → cacheName this = defaultCacheName scope) ∧
  (∀ given, name = Some given → given ≠ "" → cacheName this = given).
Proof.
  intros Hthis. rewrite constructor_on_plugins in Hthis.
  destruct (2 <=? length (omap cacheWillUpdate (default [] plugins)))%nat; [done|].
  destruct (2 <=? length (omap cacheWillMatch (default [] plugins)))%nat; [done|].
  injection Hthis as <-. cbn [cacheName].
  split; [|split; [|split]].
  - intros scope1 scope2 Heq. unfold defaultCacheName in Heq.
    by apply (append_inj_r "sw-runtime-caching-").
  - intros scope1 Heq. unfold defaultCacheName in Heq. cbn in Heq.
    discriminate Heq.
  - by intros [->| ->].
  - intros given -> Hgiven. by apply String.eqb_neq in Hgiven as ->.
Qed.

Lemma default_cache_names_witness :
  (∀ scope1 scope2,
     defaultCacheName (Some scope1) = defaultCacheName (Some scope2) →
     scope1 = scope2) ∧
  (∀ scope1, defaultCacheName (Some scope1) ≠ defaultCacheName None) ∧
  (@None string = None ∨ None = Some "" →
   cacheName plain_wrapper = defaultCacheName None) ∧
  (∀ given, @None string = Some given → given ≠ "" →
            cacheName plain_wrapper = given).
Proof.
  apply (default_cache_names None None None None None plain_wrapper).
  reflexivity.
Defined.

(** X2. The constructor keeps, for each of the five callbacks, the functions
    of the plugins that have it, in the order of the plugins, and keeps no
    array for a callback that no plugin has; of the two transform callbacks
    a constructed wrapper has at most one each. *)
Theorem constructor_registers_in_order scope name plugins fo mo this :
  constructor scope name plugins fo mo = Normal this →
  on_cacheDidUpdate (callbacks this) = registered_of cacheDidUpdate (default [] plugins) ∧
  on_fetchDidFail (callbacks this) = registered_of fetchDidFail (default [] plugins) ∧
  on_requestWillFetch (callbacks this) =
    registered_of requestWillFetch (default [] plugins) ∧
  on_cacheWillUpdate (callbacks this) =
    match omap cacheWillUpdate (default [] plugins) with
    | [decide] => Some [decide]
    | _ => None
    end ∧
  on_cacheWillMatch (callbacks this) =
    match omap cacheWillMatch (default [] plugins) with
    | [transform] => Some [transform]
    | _ => None
    end.
Proof.
  intros Hthis.
  apply constructed_callbacks in Hthis as (Hcallbacks & Hupdate & Hmatch).
  rewrite registry_of_plugins in Hcallbacks. rewrite Hcallbacks. cbn.
  repeat split; unfold registered_of.
  - destruct (omap cacheWillUpdate (default [] plugins)) as [|f [|g fs]];
      cbn in *; [done|done|lia].
  - destruct (omap cacheWillMatch (default [] plugins)) as [|f [|g fs]];
      cbn in *; [done|done|lia].
Qed.

Lemma constructor_registers_in_order_witness :
  on_cacheDidUpdate (callbacks rewriting_wrapper) =
    registered_of cacheDidUpdate (default [] (Some two_rewriters)) ∧
  on_fetchDidFail (callbacks rewriting_wrapper) =
    registered_of fetchDidFail (default [] (Some two_rewriters)) ∧
  on_requestWillFetch (callbacks rewriting_wrapper) =
    registered_of requestWillFetch (default [] (Some two_rewriters)) ∧
  on_cacheWillUpdate (callbacks rewriting_wrapper) =
    match omap cacheWillUpdate (default [] (Some two_rewriters)) with
    | [decide] => Some [decide]
    | _ => None
    end ∧
  on_cacheWillMatch (callbacks rewriting_wrapper) =
    match omap cacheWillMatch (default [] (Some two_rewriters)) with
    | [transform] => Some [transform]
    | _ => None
    end.
Proof.
  apply (constructor_registers_in_order None None (Some two_rewriters) None None
           rewriting_wrapper).
  reflexivity.
Defined.

End DefaultCacheName.

Section FetchShape.
Import RuntimeCaching.

Lemma requestWillFetch_loop_rewrites registered request w :
  requestWillFetch_loop registered request w =
  ((rewrites registered request).2,
   observed (map CallRequestWillFetch (rewrites registered request).1) w).
Proof.
  revert request w. induction registered as [|callback rest IH]; intros request w.
  - cbn. by rewrite observed_nil.
  - cbn [requestWillFetch_loop rewrites]. unfold bind at 1. rewrite log_observed.
    destruct (callback request) as [|[[returned|]|reason]]; try reflexivity.
    rewrite IH, observed_observed.
    by destruct (rewrites rest returned) as [requests outcome].
Qed.

Lemma rewrites_resolves fs request :
  rewrites (map resolves fs) request = (inputs fs request, Normal (rewritten fs request)).
Proof.
  revert request. induction fs as [|f fs IH]; intros request; [done|].
  cbn [map rewrites inputs rewritten foldl]. unfold resolves at 1.
  by rewrite IH.
Qed.

Lemma network_calls_app events events' :
  network_calls (events ++ events') = network_calls events ++ network_calls events'.
Proof. apply omap_app. Qed.

Lemma fetchDidFail_requests_app events events' :
  fetchDidFail_requests (events ++ events') =
  fetchDidFail_requests events ++ fetchDidFail_requests events'.
Proof. apply omap_app. Qed.

Lemma rewrite_calls_only requests :
  network_calls (map CallRequestWillFetch requests) = [] ∧
  fetchDidFail_requests (map CallRequestWillFetch requests) = [].
Proof. by induction requests. Qed.

Lemma failure_calls_only (observers : list (Observer Request)) sent :
  network_calls
    (map (λ callback, CallFetchDidFail (observer_name callback) sent) observers) = [] ∧
  fetchDidFail_requests
    (map (λ callback, CallFetchDidFail (observer_name callback) sent) observers) =
  map (λ _, sent) observers.
Proof.
  induction observers as [|callback rest [IHnet IHfail]]; [done|].
  split; [done|]. cbn [map]. change (fetchDidFail_requests (?e :: ?es))
    with (fetchDidFail_requests [e] ++ fetchDidFail_requests es).
  by rewrite IHfail.
Qed.

Lemma fetch_spec this request w :
  let registered := default [] (on_requestWillFetch (callbacks this)) in
  let observers := default [] (on_fetchDidFail (callbacks this)) in
  let calls := map CallRequestWillFetch (rewrites registered request).1 in
  fetch this request w =
  match (rewrites registered request).2 with
  | Throw e => (Throw e, observed calls w)
  | Normal sent =>
      match network w sent with
      | Fulfilled response =>
          (Normal response,
           observed (calls ++ [NetworkFetch sent (fetchOptions this)]) w)
      | Rejected err =>
          (Throw (default err (thrown observers sent)),
           observed (calls ++ [NetworkFetch sent (fetchOptions this)] ++
                     map (λ callback, CallFetchDidFail (observer_name callback) sent)
                       (called observers sent)) w)
      end
  end.
Proof.
  intros registered observers calls. unfold fetch.
  assert (match on_requestWillFetch (callbacks this) with
          | Some registered => requestWillFetch_loop registered request
          | None => ret request
          end w = ((rewrites registered request).2, observed calls w)) as Hloop.
  { subst calls registered.
    destruct (on_requestWillFetch (callbacks this)) as [registered|]; cbn [default];
      unfold id.
    - apply requestWillFetch_loop_rewrites.
    - cbn. by rewrite observed_nil. }
  destruct (rewrites registered request).2 as [sent|e].
  - rewrite (bind_normal _ _ _ _ _ Hloop).
    unfold try_catch, platform_fetch. unfold bind at 1. rewrite log_observed.
    unfold bind at 1. unfold gets.
    rewrite observed_observed. cbn [network observed].
    destruct (network w sent) as [response|err]; [done|].
    cbn [throw]. subst observers.
    destruct (on_fetchDidFail (callbacks this)) as [observers|]; cbn [default];
      unfold id.
    + unfold bind at 1.
      rewrite (for_of_observers observers (λ name, CallFetchDidFail name sent)).
      rewrite observed_observed, <- app_assoc.
      by destruct (thrown observers sent).
    + reflexivity.
  - by rewrite (bind_throw _ _ _ _ _ Hloop).
Qed.

(** X3. [fetch] leaves the caches and the promises in flight alone and only
    adds to the trace. It calls the network once, on the Request the
    rewrites end in, when every [requestWillFetch] callback resolves to a
    Request, and not at all when one does not, in which case it throws the
    failure of that one. The [fetchDidFail] callbacks are called only after
    a network call that rejected, each on the Request of that call, up to
    the first that throws; [fetch] then throws what that one threw, or the
    reason of the rejection when none threw. *)
Theorem fetch_calls_network_at_most_once this request w :
  let registered := default [] (on_requestWillFetch (callbacks this)) in
  let observers := default [] (on_fetchDidFail (callbacks this)) in
  let calls := map CallRequestWillFetch (rewrites registered request).1 in
  ∃ added,
    (fetch this request w).2 = observed added w ∧
    match (rewrites registered request).2 with
    | Throw e => (fetch this request w).1 = Throw e ∧ added = calls
    | Normal sent =>
        match network w sent with
        | Fulfilled response =>
            (fetch this request w).1 = Normal response ∧
            added = calls ++ [NetworkFetch sent (fetchOptions this)]
        | Rejected err =>
            (fetch this request w).1 = Throw (default err (thrown observers sent)) ∧
            added = calls ++ [NetworkFetch sent (fetchOptions this)] ++
                    map (λ callback, CallFetchDidFail (observer_name callback) sent)
                      (called observers sent)
        end
    end ∧
    network_calls added = match (rewrites registered request).2 with
                          | Throw _ => []
                          | Normal sent => [sent]
                          end ∧
    (fetchDidFail_requests added ≠ [] →
     ∃ sent err,
       network_calls added = [sent] ∧ network w sent = Rejected err ∧
       Forall (λ request, request = sent) (fetchDidFail_requests added)).
Proof.
  intros registered observers calls. rewrite fetch_spec.
  fold registered observers calls.
  destruct (rewrite_calls_only (rewrites registered request).1) as [Hnet Hfail].
  fold calls in Hnet, Hfail.
  destruct (rewrites registered request).2 as [sent|e].
  - destruct (network w sent) as [response|err] eqn:Hsent.
    + eexists. split; [reflexivity|]. split; [done|].
      rewrite network_calls_app, fetchDidFail_requests_app, Hnet, Hfail.
      split; [done|]. by intros [].
    + destruct (failure_calls_only (called observers sent) sent) as [Hnet' Hfail'].
      eexists. split; [reflexivity|]. split; [done|].
      rewrite !network_calls_app, !fetchDidFail_requests_app, Hnet, Hfail, Hnet',
        Hfail'.
      split; [done|]. intros _. exists sent, err. repeat split; [done|].
      cbn. apply Forall_fmap. by apply Forall_true.
  - eexists. split; [reflexivity|].
    split; [done|]. rewrite Hnet, Hfail. split; [done|]. by intros [].
Qed.

(** When its callbacks all resolve to Requests, [rewrites] gives the
    Requests of [inputs] and ends in the one of [rewritten]. *)
Example rewrites_of_two_rewriters :
  rewrites (default [] (on_requestWillFetch (callbacks rewriting_wrapper))) (GET "/a") =
  ([GET "/a"; with_header "x-first" "1" (GET "/a")],
   Normal (with_header "x-second" "2" (with_header "x-first" "1" (GET "/a")))).
Proof. reflexivity. Qed.

Lemma requestWillFetch_loop_app fs registered request w :
  requestWillFetch_loop (map resolves fs ++ registered) request w =
  requestWillFetch_loop registered (rewritten fs request)
    (observed (map CallRequestWillFetch (inputs fs request)) w).
Proof.
  revert request w. induction fs as [|f fs IH]; intros request w.
  - cbn. by rewrite observed_nil.
  - cbn [map app requestWillFetch_loop inputs rewritten foldl].
    unfold bind at 1. rewrite log_observed. unfold resolves at 1.
    rewrite IH, observed_observed. reflexivity.
Qed.

(** X4. When the rewrites [P1, ..., Pk] resolve to Requests and the next
    [requestWillFetch] callback hands back no promise, a promise that
    rejects or a promise of something that is no Request, [fetch] throws
    (an assertion error, or the reason of the rejection) after that call:
    the callbacks registered after it are not called, the network is not
    called, and no [fetchDidFail] callback is called. *)
Theorem fetch_aborts_on_failed_rewrite this fs failing rest request w e :
  default [] (on_requestWillFetch (callbacks this)) =
    map resolves fs ++ failing :: rest →
  rewrite_failure (failing (rewritten fs request)) = Some e →
  fetch this request w =
    (Throw e,
     observed (map CallRequestWillFetch (inputs fs request ++ [rewritten fs request]))
       w).
Proof.
  intros Hregistered Hfailing. unfold fetch.
  destruct (on_requestWillFetch (callbacks this)) as [registered|];
    simpl in Hregistered; [|by destruct fs].
  subst registered. apply bind_throw.
  rewrite requestWillFetch_loop_app. cbn [requestWillFetch_loop].
  unfold bind at 1. rewrite log_observed, observed_observed.
  rewrite map_app. cbn [map].
  destruct (failing (rewritten fs request)) as [|[[returned|]|reason]];
    cbn in Hfailing; by simplify_eq.
Qed.

Lemma fetch_aborts_on_failed_rewrite_witness :
  fetch careless_wrapper (GET "/a") (world ∅ (serving found)) =
    (Throw (AssertionError "returnedPromise"),
     observed
       (map CallRequestWillFetch
          (inputs [with_header "x-first" "1"] (GET "/a") ++
           [rewritten [with_header "x-first" "1"] (GET "/a")]))
       (world ∅ (serving found))).
Proof.
  apply (fetch_aborts_on_failed_rewrite careless_wrapper
           [with_header "x-first" "1"] (λ _, NotAPromise)
           [resolves (with_header "x-second" "2")]);
    reflexivity.
Defined.

End FetchShape.

Section MatchAndCache.
Import RuntimeCaching.

Lemma constructed_cacheWillMatch scope name plugins fo mo this :
  constructor scope name plugins fo mo = Normal this →
  on_cacheWillMatch (callbacks this) ≠ Some [] ∧
  ∀ cached,
    matched this cached =
    match omap cacheWillMatch (default [] plugins) with
    | [transform] => transform cached
    | _ => Normal cached
    end.
Proof.
  intros Hthis.
  apply constructed_callbacks in Hthis as (Hcallbacks & _ & Hmatch).
  rewrite registry_of_plugins in Hcallbacks. unfold matched.
  rewrite Hcallbacks. cbn [on_cacheWillMatch]. split.
  - apply registered_of_nonempty.
  - intros cached. unfold registered_of.
    destruct (omap cacheWillMatch (default [] plugins)) as [|f [|g fs]];
      cbn in *; [done|done|lia].
Qed.

(** [find]: the first element that passes the test, if any does. *)
Lemma find_first {A} (f : A → bool) (l : list A) :
  match List.find f l with
  | Some x =>
      ∃ before after,
        l = before ++ x :: after ∧ f x = true ∧ Forall (λ y, f y = false) before
  | None => Forall (λ y, f y = false) l
  end.
Proof.
  induction l as [|y l IH]; cbn [List.find]; [constructor|].
  destruct (f y) eqn:Hy.
  - exists [], l. by repeat split.
  - destruct (List.find f l) as [x|].
    + destruct IH as (before & after & -> & Hx & Hbefore).
      exists (y :: before), after. repeat split; [done|by constructor].
    + by constructor.
Qed.

Lemma find_app_none {A} (f : A → bool) (l l' : list A) :
  Forall (λ y, f y = false) l → List.find f (l ++ l') = List.find f l'.
Proof. induction 1 as [|y l Hy _ IH]; cbn; [done|]. by rewrite Hy. Qed.

(** X5. [match] on a constructed wrapper returns what [cache.match] finds
    for the request, under the match options of the wrapper, in the cache
    of the wrapper: the response of the first entry, in the order of the
    puts, that the platform takes the request to match, or none. What is
    found is put through the [cacheWillMatch] callback when a plugin has
    one, and what the callback returns or throws is what [match] returns or
    throws; the callback is called on a miss too, with no response. No
    entry of a cache changes. *)
Theorem match_returns_cached scope name plugins fo mo this request w :
  constructor scope name plugins fo mo = Normal this →
  let entries := storage_entries (cacheName this) (caches w) in
  let matches := cache_matches w (matchOptions this) request in
  let cached := entries_match (cache_matches w) request (matchOptions this) entries in
  (match_ this request w).1 =
    match omap cacheWillMatch (default [] plugins) with
    | [transform] => transform cached
    | _ => Normal cached
    end ∧
  trace (match_ this request w).2 =
    trace w ++
    CacheMatch (cacheName this) request (matchOptions this) ::
    match omap cacheWillMatch (default [] plugins) with
    | [] => []
    | _ => [CallCacheWillMatch cached]
    end ∧
  (∀ name,
     storage_entries name (caches (match_ this request w).2) =
     storage_entries name (caches w)) ∧
  match cached with
  | Some response =>
      ∃ before stored after,
        entries = before ++ (stored, response) :: after ∧
        matches (stored, response) = true ∧
        Forall (λ entry, matches entry = false) before
  | None => Forall (λ entry, matches entry = false) entries
  end.
Proof.
  intros Hthis entries matches cached.
  destruct (constructed_cacheWillMatch _ _ _ _ _ _ Hthis) as [Hwf Hmatched].
  apply constructed_callbacks in Hthis as (Hcallbacks & _ & _).
  rewrite registry_of_plugins in Hcallbacks.
  rewrite match_spec by done. change (found_by this request w) with cached.
  cbn [fst snd]. rewrite Hmatched. split; [done|]. split; [|split].
  - cbn [trace observed]. unfold lookup_events. rewrite Hcallbacks.
    cbn [on_cacheWillMatch]. unfold registered_of.
    by destruct (omap cacheWillMatch (default [] plugins)).
  - intros name'. cbn [caches observed set_caches].
    apply storage_entries_open.
  - subst cached. unfold entries_match. fold matches.
    pose proof (find_first matches entries) as Hfind.
    destruct (List.find matches entries) as [[stored response]|]; cbn; [|done].
    destruct Hfind as (before & after & Hentries & Hmatch & Hbefore).
    by exists before, stored, after.
Qed.

Lemma match_returns_cached_witness :
  let this := forgetful_wrapper in
  let request := GET "/a" in
  let w := world holding_old_image offline in
  let entries := storage_entries (cacheName this) (caches w) in
  let matches := cache_matches w (matchOptions this) request in
  let cached := entries_match (cache_matches w) request (matchOptions this) entries in
  (match_ this request w).1 =
    match omap cacheWillMatch (default [] (Some [forgetful])) with
    | [transform] => transform cached
    | _ => Normal cached
    end ∧
  trace (match_ this request w).2 =
    trace w ++
    CacheMatch (cacheName this) request (matchOptions this) ::
    match omap cacheWillMatch (default [] (Some [forgetful])) with
    | [] => []
    | _ => [CallCacheWillMatch cached]
    end ∧
  (∀ name,
     storage_entries name (caches (match_ this request w).2) =
     storage_entries name (caches w)) ∧
  match cached with
  | Some response =>
      ∃ before stored after,
        entries = before ++ (stored, response) :: after ∧
        matches (stored, response) = true ∧
        Forall (λ entry, matches entry = false) before
  | None => Forall (λ entry, matches entry = false) entries
  end.
Proof.
  apply (match_returns_cached None (Some "images") (Some [forgetful]) None None
           forgetful_wrapper (GET "/a") (world holding_old_image offline)).
  reflexivity.
Defined.

(** A hit is turned into a miss by a [cacheWillMatch] callback that returns
    nothing, and the callback is called on a miss as well. *)
Example match_forgetful :
  (match_ forgetful_wrapper (GET "/a") (world holding_old_image offline)).1 =
    Normal None ∧
  trace (match_ forgetful_wrapper (GET "/b") (world holding_old_image offline)).2 =
    [CacheMatch "images" (GET "/b") None; CallCacheWillMatch None].
Proof. split; reflexivity. Qed.

(** X6. The write of a [fetchAndCache], run to its end from a world of a
    platform that takes the cache key to match the entry stored under it
    and on which the match options of the wrapper do not make the key match
    an entry that it does not match without options: [match] on the cache
    key then finds the response (put through the [cacheWillMatch] callback,
    if any); the response is the last entry of the cache of the wrapper,
    whose other entries are those the key does not match, in their order;
    the other caches are as they were. When the write was awaited, the
    world it leaves is the one the call returns in. *)
Theorem match_after_fetchAndCache
    scope name plugins fo mo this request cacheKey response w0 w0' :
  constructor scope name plugins fo mo = Normal this →
  let key := default request cacheKey in
  let write := write_of this request cacheKey response in
  run write w0 = (Normal tt, w0') →
  cache_matches w0 (matchOptions this) key (key, response) = true →
  (∀ entry, cache_matches w0 (matchOptions this) key entry = true →
            cache_matches w0 None key entry = true) →
  (match_ this key w0').1 =
    match omap cacheWillMatch (default [] plugins) with
    | [transform] => transform (Some response)
    | _ => Normal (Some response)
    end ∧
  storage_entries (cacheName this) (caches w0') =
    kept w0 key (storage_entries (cacheName this) (caches w0)) ++ [(key, response)] ∧
  (∀ name', name' ≠ cacheName this →
            storage_entries name' (caches w0') = storage_entries name' (caches w0)) ∧
  (∀ w w1,
     fetch this request w = (Normal response, w1) →
     cacheable this request response w1 = (Normal true, w0) →
     fetchAndCache this request true cacheKey w = (Normal response, w0')).
Proof.
  intros Hthis key write Hrun Hself Hoptions.
  destruct (constructed_cacheWillMatch _ _ _ _ _ _ Hthis) as [Hwf Hmatched].
  destruct (run_write_entries this request cacheKey response w0 Hwf)
    as (Hothers & Hplatform & Hentries).
  fold key write in Hothers, Hplatform, Hentries.
  rewrite Hrun in Hothers, Hplatform, Hentries. cbn [fst snd] in *.
  destruct (write_failure this request cacheKey response w0) as [err|];
    [by destruct Hentries|].
  assert (found_by this key w0' = Some response) as Hfound.
  { unfold found_by, entries_match. rewrite Hentries, Hplatform.
    rewrite find_app_none.
    - cbn [List.find]. by rewrite Hself.
    - unfold kept. apply Forall_forall. intros entry [_ Hkept]%list_elem_of_In%filter_In.
      destruct (cache_matches w0 (matchOptions this) key entry) eqn:Hentry; [|done].
      apply Hoptions in Hentry. by rewrite Hentry in Hkept. }
  split; [|split; [done|split; [done|]]].
  - rewrite match_spec by done. cbn [fst]. by rewrite Hfound, Hmatched.
  - intros w w1 Hfetch Hcacheable.
    rewrite (fetchAndCache_cacheable _ _ _ _ _ _ _ _ Hfetch Hcacheable).
    fold write. by rewrite Hrun.
Qed.

Lemma match_after_fetchAndCache_witness :
  let this := plain_wrapper in
  let request := GET "/a" in
  let cacheKey := Some (GET "/key") in
  let response := found in
  let w0 := observed [NetworkFetch (GET "/a") None] (world ∅ (serving found)) in
  let w0' := (run (write_of this request cacheKey response) w0).2 in
  let key := default request cacheKey in
  (match_ this key w0').1 =
    match omap cacheWillMatch (default [] None) with
    | [transform] => transform (Some response)
    | _ => Normal (Some response)
    end ∧
  storage_entries (cacheName this) (caches w0') =
    kept w0 key (storage_entries (cacheName this) (caches w0)) ++ [(key, response)] ∧
  (∀ name', name' ≠ cacheName this →
            storage_entries name' (caches w0') = storage_entries name' (caches w0)) ∧
  (∀ w w1,
     fetch this request w = (Normal response, w1) →
     cacheable this request response w1 = (Normal true, w0) →
     fetchAndCache this request true cacheKey w = (Normal response, w0')).
Proof.
  apply (match_after_fetchAndCache None None None None None plain_wrapper (GET "/a")
           (Some (GET "/key")) found
           (observed [NetworkFetch (GET "/a") None] (world ∅ (serving found)))).
  - reflexivity.
  - reflexivity.
  - reflexivity.
  - intros entry Hentry. exact Hentry.
Defined.

(** With match options that make the key match an entry it does not match
    without options, the put leaves that entry, and [match] finds it before
    the response that was just put. *)
Example older_entry_found_without_search :
  let w' := (fetchAndCache searchless_wrapper (GET "/a?v=2") true None versioned).2 in
  caches w' =
    {[ "pages" := [(GET "/a?v=1", old_image); (GET "/a?v=2", new_image)] ]} ∧
  (match_ searchless_wrapper (GET "/a?v=2") w').1 = Normal (Some old_image).
Proof. split; reflexivity. Qed.

(** X7. Without [waitOnCache], [fetchAndCache] returns the response of a
    cacheable fetch before anything is written: the caches are as they
    were, and the write is a promise in flight. *)
Theorem fetchAndCache_returns_before_write this request cacheKey w response w1 w2 :
  fetch this request w = (Normal response, w1) →
  cacheable this request response w1 = (Normal true, w2) →
  let w' := (fetchAndCache this request false cacheKey w).2 in
  (fetchAndCache this request false cacheKey w).1 = Normal response ∧
  caches w' = caches w ∧
  trace w' = trace w2 ∧
  pending w' =
    pending w ++ [CachingComplete this request cacheKey response response].
Proof.
  intros Hfetch Hcacheable.
  destruct (quiet_result _ _ _ _ (quiet_fetch this request) Hfetch)
    as (Hc1 & _ & Hp1 & _).
  destruct (quiet_result _ _ _ _ (quiet_cacheable this request response) Hcacheable)
    as (Hc2 & _ & Hp2 & _).
  unfold fetchAndCache.
  rewrite (bind_normal _ _ _ _ _ Hfetch), (bind_normal _ _ _ _ _ Hcacheable).
  cbn. by rewrite Hc2, Hc1, Hp2, Hp1.
Qed.

Lemma fetchAndCache_returns_before_write_witness :
  let w := world ∅ (serving found) in
  let w' := (fetchAndCache plain_wrapper (GET "/a") false None w).2 in
  (fetchAndCache plain_wrapper (GET "/a") false None w).1 = Normal found ∧
  caches w' = caches w ∧
  trace w' = trace (observed [NetworkFetch (GET "/a") None] w) ∧
  pending w' =
    pending w ++ [CachingComplete plain_wrapper (GET "/a") None found found].
Proof.
  apply (fetchAndCache_returns_before_write plain_wrapper (GET "/a") None
           (world ∅ (serving found)) found
           (observed [NetworkFetch (GET "/a") None] (world ∅ (serving found))));
    reflexivity.
Defined.

(** X8. A [fetchAndCache] whose fetch fails throws what the fetch throws, and
    one that finds the response not cacheable and does not wait returns the
    response: either way no cache is written and no promise is left. *)
Theorem fetchAndCache_without_write this request waitOnCache cacheKey w :
  (∀ e w1,
     fetch this request w = (Throw e, w1) →
     fetchAndCache this request waitOnCache cacheKey w = (Throw e, w1) ∧
     caches w1 = caches w ∧ pending w1 = pending w) ∧
  (∀ response w1 w2,
     fetch this request w = (Normal response, w1) →
     cacheable this request response w1 = (Normal false, w2) →
     fetchAndCache this request false cacheKey w = (Normal response, w2) ∧
     caches w2 = caches w ∧ pending w2 = pending w).
Proof.
  split.
  - intros e w1 Hfetch.
    destruct (quiet_result _ _ _ _ (quiet_fetch this request) Hfetch)
      as (Hc1 & _ & Hp1 & _).
    split; [|done]. unfold fetchAndCache. by apply bind_throw.
  - intros response w1 w2 Hfetch Hcacheable.
    destruct (quiet_result _ _ _ _ (quiet_fetch this request) Hfetch)
      as (Hc1 & _ & Hp1 & _).
    destruct (quiet_result _ _ _ _ (quiet_cacheable this request response)
                Hcacheable) as (Hc2 & _ & Hp2 & _).
    split; [|by rewrite Hc2, Hp2]. unfold fetchAndCache.
    by rewrite (bind_normal _ _ _ _ _ Hfetch), (bind_normal _ _ _ _ _ Hcacheable).
Qed.

Lemma fetchAndCache_without_write_witness :
  (fetchAndCache plain_wrapper (GET "/a") true None (world ∅ offline) =
     (Throw (PlatformError "TypeError: Failed to fetch"),
      observed [NetworkFetch (GET "/a") None] (world ∅ offline)) ∧
   caches (observed [NetworkFetch (GET "/a") None] (world ∅ offline)) =
     caches (world ∅ offline) ∧
   pending (observed [NetworkFetch (GET "/a") None] (world ∅ offline)) =
     pending (world ∅ offline)) ∧
  (fetchAndCache plain_wrapper (GET "/a") false None (world ∅ (serving not_found)) =
     (Normal not_found,
      observed [NetworkFetch (GET "/a") None] (world ∅ (serving not_found))) ∧
   caches (observed [NetworkFetch (GET "/a") None] (world ∅ (serving not_found))) =
     caches (world ∅ (serving not_found)) ∧
   pending (observed [NetworkFetch (GET "/a") None] (world ∅ (serving not_found))) =
     pending (world ∅ (serving not_found))).
Proof.
  split.
  - apply (proj1 (fetchAndCache_without_write plain_wrapper (GET "/a") true None
                    (world ∅ offline))).
    reflexivity.
  - apply (proj2 (fetchAndCache_without_write plain_wrapper (GET "/a") false None
                    (world ∅ (serving not_found)))
             not_found
             (observed [NetworkFetch (GET "/a") None] (world ∅ (serving not_found))));
      reflexivity.
Defined.

(** X9. On a wrapper constructed with a [cacheWillUpdate] callback, the
    callback alone decides, whatever the status of the response. When it
    returns true the response goes to the write, which is run before the
    call returns (its failure being the failure of the call) or left in
    flight, and which, from whatever world it runs, leaves the response in
    the cache of the wrapper under the cache key unless the lookup of the
    old response throws or the platform refuses the put. When it returns
    false nothing is put and nothing is left in flight, and a call that
    was to wait fails. When it throws, the call throws what it throws, and
    nothing is put. *)
Theorem cacheWillUpdate_decides
    scope name plugins fo mo this decide request waitOnCache cacheKey w response w1 :
  constructor scope name plugins fo mo = Normal this →
  omap cacheWillUpdate (default [] plugins) = [decide] →
  fetch this request w = (Normal response, w1) →
  let key := default request cacheKey in
  let write := write_of this request cacheKey response in
  let w2 := observed [CallCacheWillUpdate request response] w1 in
  let result := fetchAndCache this request waitOnCache cacheKey w in
  cacheable this request response w1 = (decide request response, w2) ∧
  caches w2 = caches w ∧ pending w2 = pending w ∧
  match decide request response with
  | Throw err => result = (Throw err, w2)
  | Normal false =>
      result = (if waitOnCache
                then Throw (ErrorFactory.createError "invalid-reponse-for-caching")
                else Normal response,
                w2)
  | Normal true =>
      result = (if waitOnCache
                then (match (run write w2).1 with
                      | Normal _ => Normal response
                      | Throw err => Throw err
                      end,
                      (run write w2).2)
                else (Normal response, in_flight write w2)) ∧
      ∀ w0,
        let entries := storage_entries (cacheName this) (caches w0) in
        let entries' := storage_entries (cacheName this) (caches (run write w0).2) in
        match write_failure this request cacheKey response w0 with
        | Some err => (run write w0).1 = Throw err ∧ entries' = entries
        | None => entries' = kept w0 key entries ++ [(key, response)]
        end
  end.
Proof.
  intros Hthis Hdecide Hfetch key write w2 result.
  destruct (constructed_cacheWillMatch _ _ _ _ _ _ Hthis) as [Hwf _].
  apply constructed_callbacks in Hthis as (Hcallbacks & _ & _).
  rewrite registry_of_plugins in Hcallbacks.
  assert (cacheable this request response w1 = (decide request response, w2))
    as Hcacheable.
  { unfold cacheable. rewrite Hcallbacks. cbn [on_cacheWillUpdate].
    unfold registered_of. by rewrite Hdecide. }
  destruct (quiet_result _ _ _ _ (quiet_fetch this request) Hfetch)
    as (Hc1 & _ & Hp1 & _).
  split; [done|]. do 2 (split; [done|]). subst result.
  destruct (decide request response) as [[|]|err] eqn:Hdecided.
  - split; [by apply (fetchAndCache_cacheable _ _ _ _ _ _ w1 w2)|].
    intros w0. apply (run_write_entries this request cacheKey response w0 Hwf).
  - by apply (fetchAndCache_not_cacheable _ _ _ _ _ _ w1 w2).
  - unfold fetchAndCache. rewrite (bind_normal _ _ _ _ _ Hfetch).
    by apply bind_throw.
Qed.

Lemma cacheWillUpdate_decides_witness :
  let this := contrary_wrapper in
  let decide := λ (_ : Request) response, Normal (status response =? 404)%Z in
  let request := GET "/a" in
  let response := not_found in
  let w := world ∅ (serving not_found) in
  let w1 := observed [NetworkFetch (GET "/a") None] w in
  let key := default request None in
  let write := write_of this request None response in
  let w2 := observed [CallCacheWillUpdate request response] w1 in
  let result := fetchAndCache this request true None w in
  cacheable this request response w1 = (decide request response, w2) ∧
  caches w2 = caches w ∧ pending w2 = pending w ∧
  match decide request response with
  | Throw err => result = (Throw err, w2)
  | Normal false =>
      result = (if true
                then Throw (ErrorFactory.createError "invalid-reponse-for-caching")
                else Normal response,
                w2)
  | Normal true =>
      result = (if true
                then (match (run write w2).1 with
                      | Normal _ => Normal response
                      | Throw err => Throw err
                      end,
                      (run write w2).2)
                else (Normal response, in_flight write w2)) ∧
      ∀ w0,
        let entries := storage_entries (cacheName this) (caches w0) in
        let entries' := storage_entries (cacheName this) (caches (run write w0).2) in
        match write_failure this request None response w0 with
        | Some err => (run write w0).1 = Throw err ∧ entries' = entries
        | None => entries' = kept w0 key entries ++ [(key, response)]
        end
  end.
Proof.
  apply (cacheWillUpdate_decides None None (Some [contrary]) None None
           contrary_wrapper (λ _ response, Normal (status response =? 404)%Z)
           (GET "/a") true None (world ∅ (serving not_found)) not_found);
    reflexivity.
Defined.

(** With that callback a 404 is cached and a 200 is not. *)
Example contrary_caches_404_not_200 :
  caches (fetchAndCache contrary_wrapper (GET "/a") true None
            (world ∅ (serving not_found))).2 =
    {[ "sw-runtime-caching" := [(GET "/a", not_found)] ]} ∧
  fetchAndCache contrary_wrapper (GET "/a") false None (world ∅ (serving found)) =
    (Normal found,
     observed [NetworkFetch (GET "/a") None; CallCacheWillUpdate (GET "/a") found]
       (world ∅ (serving found))).
Proof. split; reflexivity. Qed.

End MatchAndCache.

(** * Further properties of the expiration plugin *)

Section Timestamps.
Import CacheExpiration.

Lemma idbId_inj cacheName1 cacheName2 :
  idbId cacheName1 = idbId cacheName2 → cacheName1 = cacheName2.
Proof.
  unfold idbId. intros Heq.
  by apply (append_inj_r "-"), (append_inj_r idbName).
Qed.

(** X11. [updateTimestamp] records [now] (the clock when no [now] is given) for
    the URL in the store of the cache name, replacing the record the URL
    had: the store grows by one record only when the URL had none. No
    other record, of this or another cache name, changes, and neither do
    the caches or the promises in flight. *)
Theorem updateTimestamp_upserts this cacheName url now w :
  let w' := (updateTimestamp this cacheName url now w).2 in
  let store := store_of (idbId cacheName) w in
  (updateTimestamp this cacheName url now w).1 = Normal tt ∧
  timestamp_at cacheName url w' = Some (default (clock w) now) ∧
  (∀ cacheName' url',
     cacheName' ≠ cacheName ∨ url' ≠ url →
     timestamp_at cacheName' url' w' = timestamp_at cacheName' url' w) ∧
  size (store_of (idbId cacheName) w') =
    match store !! url with
    | Some _ => size store
    | None => S (size store)
    end ∧
  caches w' = caches w ∧ pending w' = pending w.
Proof.
  intros w' store.
  assert (∃ now', match now with
                  | Some now => ret now
                  | None => gets clock
                  end w = (Normal now', w) ∧ now' = default (clock w) now)
    as (now' & Hnow & Hnow') by (destruct now; by eexists).
  assert (updateTimestamp this cacheName url now w =
          (Normal tt,
           set_databases
             (λ dbs, <[idbId cacheName :=
                         <[url := now']> (default ∅ (dbs !! idbId cacheName))]> dbs)
             (opened cacheName w))) as Hupdate.
  { unfold updateTimestamp. by rewrite (bind_normal _ _ _ _ _ Hnow). }
  assert (store_of (idbId cacheName) w' = <[url := now']> store) as Hstore.
  { subst w'. rewrite Hupdate. cbn [snd]. unfold store_of at 1, set_databases.
    cbn [databases]. rewrite lookup_insert_eq. cbn [default].
    fold (store_of (idbId cacheName) (opened cacheName w)).
    by rewrite store_of_opened. }
  split; [by rewrite Hupdate|]. split; [|split; [|split]].
  - unfold timestamp_at. rewrite Hstore, <- Hnow'. apply lookup_insert_eq.
  - intros cacheName' url' Hother. unfold timestamp_at.
    destruct (decide (cacheName' = cacheName)) as [->|Hname].
    + rewrite Hstore. destruct Hother as [|Hurl]; [done|].
      by rewrite lookup_insert_ne.
    + f_equal. subst w'. rewrite Hupdate. cbn [snd].
      unfold store_of, set_databases, opened, set_databases. cbn [databases].
      rewrite lookup_insert_ne by (intros Heq; by apply idbId_inj in Heq).
      destruct (databases w !! idbId cacheName); [done|].
      rewrite lookup_insert_ne by (intros Heq; by apply idbId_inj in Heq).
      done.
  - rewrite Hstore. destruct (store !! url) as [old|] eqn:Hurl.
    + rewrite <- (insert_delete_id store url old) at 2 by done.
      rewrite <- insert_delete_eq.
      by rewrite !map_size_insert_None by apply lookup_delete_eq.
    + by apply map_size_insert_None.
  - subst w'. by rewrite Hupdate.
Qed.

End Timestamps.

Section OldEntries.
Import CacheExpiration.

(** The cursor walk of [findOldEntries]: it adds the URLs of the records
    older than the threshold, and none when the threshold is NaN. *)
Lemma iterateCursor_old (threshold : option Z) index urls :
  iterateCursor
    (λ cursor urls,
       match cursor with
       | None => (urls, false)
       | Some (url, timestamp) =>
           (if JS.lt (Some timestamp) threshold then urls ++ [url] else urls, true)
       end) index urls =
  urls ++ map fst (match threshold with
                   | Some t => filter (λ r, (r.2 < t)%Z) index
                   | None => []
                   end).
Proof.
  revert urls. induction index as [|[url timestamp] index IH]; intros urls.
  - cbn. destruct threshold; cbn; by rewrite app_nil_r.
  - cbn [iterateCursor]. rewrite IH. destruct threshold as [t|]; cbn [JS.lt]; [|done].
    destruct (Z.ltb_spec timestamp t) as [Hold|Hnew].
    + rewrite filter_cons_True by done. cbn [map fst]. by rewrite <- app_assoc.
    + rewrite filter_cons_False by (cbn; lia). done.
Qed.

Lemma findOldEntries_spec this cacheName now w :
  findOldEntries this cacheName now w =
  (Normal (map fst
             (match JS.sub (Some now)
                      (JS.mul (ToNumber (maxAgeSeconds this)) (Some 1000%Z)) with
              | Some t => filter (λ r, (r.2 < t)%Z)
                            (timestampIndex (store_of (idbId cacheName) w))
              | None => []
              end)),
   opened cacheName w).
Proof.
  unfold findOldEntries, getDB, bind, modify, gets, ret. cbn [fst snd].
  fold (opened cacheName w). rewrite store_of_opened.
  by rewrite iterateCursor_old.
Qed.

Lemma elem_of_index (store : Store) url timestamp :
  (url, timestamp) ∈ timestampIndex store ↔ store !! url = Some timestamp.
Proof. by rewrite timestampIndex_Permutation, elem_of_map_to_list. Qed.

(** X12. [findOldEntries] returns the URLs of the records whose timestamp is
    less than [now - maxAgeSeconds * 1000], in the order of the timestamp
    index, and no URL when [maxAgeSeconds] is not a number: a URL is
    returned exactly when the store has a record for it that old. *)
Theorem findOldEntries_older this cacheName now w :
  let index := timestampIndex (store_of (idbId cacheName) w) in
  ∃ urls,
    (findOldEntries this cacheName now w).1 = Normal urls ∧
    urls = map fst
             (match ToNumber (maxAgeSeconds this) with
              | Some seconds => filter (λ r, (r.2 < now - seconds * 1000)%Z) index
              | None => []
              end) ∧
    ∀ url,
      url ∈ urls ↔
      ∃ seconds timestamp,
        ToNumber (maxAgeSeconds this) = Some seconds ∧
        timestamp_at cacheName url w = Some timestamp ∧
        (timestamp < now - seconds * 1000)%Z.
Proof.
  intros index. eexists. split; [by rewrite findOldEntries_spec|].
  fold index. destruct (ToNumber (maxAgeSeconds this)) as [seconds|];
    cbn [JS.mul JS.sub].
  - split; [done|]. intros url. rewrite list_elem_of_fmap. split.
    + intros ([url' timestamp] & -> & [Hold Hin]%list_elem_of_filter).
      exists seconds, timestamp. by apply elem_of_index in Hin.
    + intros (seconds' & timestamp & [= <-] & Hstored & Hold).
      exists (url, timestamp). split; [done|].
      apply list_elem_of_filter. split; [done|]. by apply elem_of_index.
  - split; [done|]. intros url. split; [by intros ?%elem_of_nil|].
    by intros (? & ? & ? & _).
Qed.

(** X13. A response that is fresh at a time is fresh at every earlier time. *)
Theorem isResponseFresh_earlier this cachedResponse now earlier w :
  (earlier ≤ now)%Z →
  (isResponseFresh this cachedResponse (Some now) w).1 = Normal true →
  (isResponseFresh this cachedResponse (Some earlier) w).1 = Normal true.
Proof.
  intros Hearlier. unfold isResponseFresh.
  destruct cachedResponse as [response|]; [|done].
  destruct (truthy (maxAgeSeconds this)); [|done].
  destruct (headers_get response "date") as [dateHeader|]; [|done].
  destruct (negb (dateHeader =? "")%string); [|done].
  unfold bind, ret, gets. cbn [fst snd].
  destruct (JS.add (Date_parse w dateHeader)
              (JS.mul (ToNumber (maxAgeSeconds this)) (Some 1000%Z)))
    as [expires|]; cbn [JS.lt]; [|done].
  destruct (Z.ltb_spec expires now), (Z.ltb_spec expires earlier);
    try done; lia.
Qed.

Lemma isResponseFresh_earlier_witness :
  (isResponseFresh ten_seconds (Some (dated ten_seconds_in)) (Some 15000%Z) at_30s).1 =
    Normal true.
Proof.
  apply (isResponseFresh_earlier ten_seconds (Some (dated ten_seconds_in))
           20000 15000 at_30s); [lia|reflexivity].
Defined.

(** X14. [cacheWillMatch] changes nothing and returns the cached response or
    [null], never another response; it returns the cached response when
    [maxAgeSeconds] is not set (or is 0), when there is no cached response
    and when the response has no [Date] header. *)
Theorem cacheWillMatch_all_or_nothing this cachedResponse now w :
  ∃ returned,
    cacheWillMatch this cachedResponse now w = (Normal returned, w) ∧
    (returned = cachedResponse ∨ returned = None) ∧
    (truthy (maxAgeSeconds this) = false → returned = cachedResponse) ∧
    (∀ response,
       cachedResponse = Some response → headers_get response "date" = None →
       returned = cachedResponse).
Proof.
  assert (∃ fresh, isResponseFresh this cachedResponse now w = (Normal fresh, w) ∧
                   (truthy (maxAgeSeconds this) = false → fresh = true) ∧
                   (∀ response,
                      cachedResponse = Some response →
                      headers_get response "date" = None → fresh = true))
    as (fresh & Hfresh & Hunset & Hundated).
  { unfold isResponseFresh.
    destruct cachedResponse as [response|]; [|by exists true].
    destruct (truthy (maxAgeSeconds this)); [|by exists true].
    destruct (headers_get response "date") as [dateHeader|] eqn:Hdate;
      [|by exists true].
    destruct (negb (dateHeader =? "")%string).
    - assert (∃ now', match now with
                      | Some now => ret now
                      | None => gets clock
                      end w = (Normal now', w)) as [now' Hnow]
        by (destruct now; by eexists).
      rewrite (bind_normal _ _ _ _ _ Hnow). unfold bind, gets. cbn [fst snd].
      destruct (JS.lt _ _); eexists; (split; [reflexivity|]);
        by split; [|intros ? [= <-]; rewrite Hdate].
    - exists true. by split; [|split]. }
  unfold cacheWillMatch. rewrite (bind_normal _ _ _ _ _ Hfresh).
  destruct fresh.
  - exists cachedResponse. by repeat split; [left|..].
  - exists None. split; [done|]. split; [by right|]. split.
    + intros Hfalse. by apply Hunset in Hfalse.
    + intros response Hsome Hdate. by apply (Hundated response) in Hsome.
Qed.

End OldEntries.

Section ExpiredUrls.
Import CacheExpiration.

Lemma Set_values_spec seen urls :
  NoDup (Set_values seen urls) ∧
  ∀ url, url ∈ Set_values seen urls ↔ url ∈ urls ∧ url ∉ seen.
Proof.
  revert seen. induction urls as [|url urls IH]; intros seen; cbn [Set_values].
  - split; [constructor|]. intros url. rewrite elem_of_nil. tauto.
  - destruct (IH seen) as [Hnodup Hin].
    destruct (IH (url :: seen)) as [Hnodup' Hin'].
    case_bool_decide as Hseen.
    + split; [done|]. intros url'. rewrite Hin, elem_of_cons.
      clear IH Hin Hin'. intuition (subst; tauto).
    + split.
      * constructor; [|done]. rewrite Hin', elem_of_cons.
        clear IH Hin Hin'. tauto.
      * intros url'. rewrite !elem_of_cons, Hin', elem_of_cons.
        clear IH Hin Hin'.
        destruct (decide (url' = url)) as [->|Hne]; tauto.
Qed.

Lemma findExtraEntries_spec this cacheName w :
  findExtraEntries this cacheName w =
  (Normal (map fst
             (match ToNumber (maxEntries this) with
              | Some entries =>
                  take (Z.to_nat (Z.of_nat (size (store_of (idbId cacheName) w))
                                  - entries))
                    (timestampIndex (store_of (idbId cacheName) w))
              | None => []
              end)),
   opened cacheName w).
Proof.
  unfold findExtraEntries, getDB, bind, modify, gets, ret. cbn [fst snd].
  fold (opened cacheName w). rewrite store_of_opened.
  set (store := store_of (idbId cacheName) w).
  destruct (ToNumber (maxEntries this)) as [entries|]; [|done].
  unfold JS.gt at 1. cbn [JS.lt].
  destruct (Z.ltb_spec entries (Z.of_nat (size store))) as [Hover|Hwithin].
  - rewrite iterateCursor_extra by (cbn [length]; lia).
    cbn [length app]. by rewrite Z.sub_0_r.
  - replace (Z.to_nat (Z.of_nat (size store) - entries)) with 0 by lia.
    by rewrite take_0.
Qed.

(** What [expireEntries] resolves with: the URLs of the old records
    followed by those of the extra records, both of the store as it is at
    the call, each URL once. *)
Lemma expireEntries_result this cacheName now w :
  let index := timestampIndex (store_of (idbId cacheName) w) in
  (expireEntries this cacheName now w).1 =
  Normal (Set_values []
            (map fst (old_records (maxAgeSeconds this) (default (clock w) now) index) ++
             map fst (extra_records (maxEntries this) index))).
Proof.
  intros index. unfold expireEntries.
  assert (match now with
          | Some now => ret now
          | None => gets clock
          end w = (Normal (default (clock w) now), w)) as Hnow by by destruct now.
  rewrite (bind_normal _ _ _ _ _ Hnow).
  assert (∃ w1,
            (if truthy (maxAgeSeconds this)
             then findOldEntries this cacheName (default (clock w) now)
             else ret []) w =
            (Normal (map fst (old_records (maxAgeSeconds this)
                                (default (clock w) now) index)), w1) ∧
            store_of (idbId cacheName) w1 = store_of (idbId cacheName) w)
    as (w1 & Hold & Hstore1).
  { unfold old_records, limit_of. destruct (truthy (maxAgeSeconds this)).
    - exists (opened cacheName w). split; [|apply store_of_opened].
      rewrite findOldEntries_spec. fold index.
      by destruct (ToNumber (maxAgeSeconds this)).
    - by exists w. }
  rewrite (bind_normal _ _ _ _ _ Hold).
  assert (∃ w2,
            (if truthy (maxEntries this)
             then findExtraEntries this cacheName
             else ret []) w1 =
            (Normal (map fst (extra_records (maxEntries this) index)), w2))
    as (w2 & Hextra).
  { unfold extra_records, limit_of. destruct (truthy (maxEntries this)).
    - exists (opened cacheName w1). rewrite findExtraEntries_spec, Hstore1.
      subst index. by rewrite timestampIndex_length.
    - by exists w1. }
  rewrite (bind_normal _ _ _ _ _ Hextra).
  destruct (deleteFromCacheAndIDB_pending this cacheName
              (Set_values []
                 (map fst (old_records (maxAgeSeconds this)
                             (default (clock w) now) index) ++
                  map fst (extra_records (maxEntries this) index))) w2)
    as (w3 & Hdelete & _).
  by rewrite (bind_normal _ _ _ _ _ Hdelete).
Qed.

(** X15. [expireEntries] resolves with a list without duplicates, of exactly
    the URLs whose record is older than the maximum age at [now] (when
    [maxAgeSeconds] is set) and the URLs of the first records of the
    timestamp index that are over the maximum number (when [maxEntries] is
    set). *)
Theorem expireEntries_urls this cacheName now w :
  let index := timestampIndex (store_of (idbId cacheName) w) in
  ∃ urls,
    (expireEntries this cacheName now w).1 = Normal urls ∧
    NoDup urls ∧
    ∀ url,
      url ∈ urls ↔
      url ∈ map fst (old_records (maxAgeSeconds this) (default (clock w) now) index) ∨
      url ∈ map fst (extra_records (maxEntries this) index).
Proof.
  intros index. eexists. split; [apply expireEntries_result|].
  fold index.
  destruct (Set_values_spec []
              (map fst (old_records (maxAgeSeconds this)
                          (default (clock w) now) index) ++
               map fst (extra_records (maxEntries this) index)))
    as [Hnodup Hin].
  split; [done|]. intros url. rewrite Hin, elem_of_app, elem_of_nil. tauto.
Qed.

End ExpiredUrls.

Section Settling.
Import CacheExpiration.

Lemma timestamp_at_perform_other name url op w :
  op ≠ OpStoreDelete name url →
  timestamp_at name url (perform op w) = timestamp_at name url w.
Proof.
  destruct op as [cacheName url'|cacheName url']; [done|]. intros Hop.
  unfold timestamp_at, perform, set_databases, store_of. cbn [databases].
  destruct (databases w !! idbId cacheName) as [store|] eqn:Hstore; [|done].
  destruct (decide (cacheName = name)) as [->|Hname].
  - rewrite lookup_insert_eq, Hstore. cbn.
    rewrite lookup_delete_ne; [done|]. by intros ->.
  - rewrite lookup_insert_ne; [done|]. by intros ?%idbId_inj.
Qed.



Lemma is_store_delete name url op :
  op = OpStoreDelete name url ∨ op ≠ OpStoreDelete name url.
Proof.
  destruct op as [cacheName url'|cacheName url']; [by right|].
  destruct (decide (cacheName = name)) as [->|Hname];
    destruct (decide (url' = url)) as [->|Hurl]; [by left|right..]; congruence.
Qed.

Lemma timestamp_at_settle_Some schedule name url w timestamp :
  timestamp_at name url (settle schedule w) = Some timestamp →
  timestamp_at name url w = Some timestamp.
Proof.
  unfold settle.
  change (timestamp_at name url (set_pending (λ _, []) ?w))
    with (timestamp_at name url w).
  induction schedule as [|op schedule IH] using rev_ind; [done|].
  rewrite foldl_snoc. intros Hsome. apply IH.
  destruct (timestamp_at name url (foldl (λ w op, perform op w) w schedule))
    as [t|] eqn:Hbefore.
  - destruct (is_store_delete name url op) as [->|Hop].
    + by rewrite timestamp_at_deleted in Hsome.
    + rewrite timestamp_at_perform_other in Hsome by done. congruence.
  - by rewrite timestamp_at_perform in Hsome.
Qed.

(** A store that has lost the records of distinct URLs it had, and gained
    none, is smaller by at least their number. *)
Lemma size_after_deleting (before after : Store) (urls : list string) :
  (∀ url timestamp, after !! url = Some timestamp → before !! url = Some timestamp) →
  (∀ url, url ∈ urls → after !! url = None) →
  (∀ url, url ∈ urls → is_Some (before !! url)) →
  NoDup urls →
  size after + length urls ≤ size before.
Proof.
  intros Hsub Hgone Hhad Hnodup.
  rewrite <- (size_dom after), <- (size_dom before).
  rewrite <- (size_list_to_set (C := gset string) urls) by done.
  assert (list_to_set urls ⊆ dom before) as Hurls.
  { intros url Hurl%elem_of_list_to_set. by apply elem_of_dom, Hhad. }
  assert (dom after ⊆ dom before ∖ list_to_set urls) as Hafter.
  { intros url [timestamp Hurl]%elem_of_dom. apply elem_of_difference. split.
    - apply elem_of_dom. eexists. by apply Hsub.
    - intros Hin%elem_of_list_to_set. apply Hgone in Hin. congruence. }
  apply subseteq_size in Hafter. rewrite size_difference in Hafter by done.
  apply subseteq_size in Hurls. lia.
Qed.

Lemma index_keys_NoDup (store : Store) : NoDup (map fst (timestampIndex store)).
Proof.
  rewrite timestampIndex_Permutation. apply NoDup_fst_map_to_list.
Qed.

Lemma index_keys_take_NoDup (store : Store) n :
  NoDup (map fst (take n (timestampIndex store))).
Proof.
  pose proof (index_keys_NoDup store) as Hnodup.
  rewrite <- (take_drop n (timestampIndex store)), map_app in Hnodup.
  by apply NoDup_app in Hnodup as [Htake _].
Qed.

(** The world [expireEntries] resolves in. *)
Lemma expireEntries_world this cacheName now w :
  let index := timestampIndex (store_of (idbId cacheName) w) in
  let urls := Set_values []
                (map fst (old_records (maxAgeSeconds this)
                            (default (clock w) now) index) ++
                 map fst (extra_records (maxEntries this) index)) in
  ∃ w',
    expireEntries this cacheName now w = (Normal urls, w') ∧
    store_of (idbId cacheName) w' = store_of (idbId cacheName) w ∧
    (∀ name url, response_at name url w' = response_at name url w) ∧
    pending w' =
      pending w ++
      map (λ url, [OpCacheDelete cacheName url; OpStoreDelete cacheName url]) urls.
Proof.
  intros index urls.
  pose proof (expireEntries_result this cacheName now w) as Hresult.
  cbv zeta in Hresult. fold index urls in Hresult.
  destruct (expireEntries_steps this cacheName now w)
    as (oldEntries & extraEntries & w2 & w3 & _ & Hw2 & Hdelete & Hexpire).
  rewrite Hexpire in Hresult. cbn [fst] in Hresult. injection Hresult as Hurls.
  rewrite Hurls in Hexpire, Hdelete.
  destruct (deleteFromCacheAndIDB_pending this cacheName urls w2)
    as (w3' & Hdelete' & Hstore3 & Hcaches3 & Hpending3).
  rewrite Hdelete in Hdelete'. injection Hdelete' as <-.
  destruct Hw2 as (Hstore2 & Hcaches2 & Hpending2).
  exists w3. split; [done|]. split; [by rewrite Hstore3|]. split.
  - intros name url. by rewrite Hcaches3.
  - by rewrite Hpending3, Hpending2.
Qed.

(** X17. With [maxEntries] a number other than 0, once the promises that
    [expireEntries] left behind are over, the store of the cache name
    holds at most [maxEntries] records. *)
Theorem expireEntries_keeps_maximum this cacheName now w entries schedule :
  maxEntries this = JSNumber entries →
  entries ≠ 0%Z →
  (∀ promise op,
     promise ∈ pending (expireEntries this cacheName now w).2 →
     op ∈ promise → op ∈ schedule) →
  size (store_of (idbId cacheName)
          (settle schedule (expireEntries this cacheName now w).2))
  ≤ Z.to_nat entries.
Proof.
  intros Hmax Hentries Hschedule.
  destruct (expireEntries_world this cacheName now w)
    as (w' & Hexpire & Hstore & _ & Hpending).
  rewrite Hexpire in Hschedule |- *. cbn [snd] in Hschedule |- *.
  set (store := store_of (idbId cacheName) w) in *.
  set (index := timestampIndex store) in *.
  set (after := store_of (idbId cacheName) (settle schedule w')).
  set (extra := extra_records (maxEntries this) index).
  assert (size after + length (map fst extra) ≤ size store) as Hsize.
  { apply size_after_deleting.
    - intros url timestamp Hafter.
      apply (timestamp_at_settle_Some schedule cacheName url w') in Hafter.
      unfold timestamp_at in Hafter. by rewrite Hstore in Hafter.
    - intros url Hurl. apply settle_deletes.
      apply (Hschedule [OpCacheDelete cacheName url; OpStoreDelete cacheName url]).
      + rewrite Hpending. apply elem_of_app. right.
        apply list_elem_of_fmap. exists url. split; [done|].
        apply Set_values_spec. split; [|apply not_elem_of_nil].
        apply elem_of_app. by right.
      + right. by left.
    - intros url ([url' timestamp] & -> & Hin)%list_elem_of_fmap.
      exists timestamp. apply elem_of_index.
      unfold extra, extra_records in Hin. destruct (limit_of (maxEntries this));
        [|by apply elem_of_nil in Hin].
      by apply subseteq_take in Hin.
    - unfold extra, extra_records. destruct (limit_of (maxEntries this));
        [|constructor].
      apply index_keys_take_NoDup. }
  assert (length (map fst extra) =
          min (Z.to_nat (Z.of_nat (size store) - entries)) (size store)) as Hextra.
  { unfold extra, extra_records, limit_of. rewrite Hmax. cbn [truthy ToNumber].
    destruct (Z.eqb_spec entries 0) as [|_]; [done|]. cbn [negb].
    rewrite length_map, length_take. unfold index.
    by rewrite timestampIndex_length. }
  lia.
Qed.

End Settling.

Section SettlingExamples.
Import CacheExpiration.

Lemma expireEntries_keeps_maximum_witness :
  size (store_of (idbId "pages")
          (settle [OpCacheDelete "pages" "/a"; OpStoreDelete "pages" "/a"]
             (expireEntries two_entries "pages" None three_pages).2))
  ≤ Z.to_nat 2.
Proof.
  apply (expireEntries_keeps_maximum two_entries "pages" None three_pages 2
           [OpCacheDelete "pages" "/a"; OpStoreDelete "pages" "/a"]);
    [reflexivity|lia|].
  intros promise op Hpromise Hop.
  assert (pending (expireEntries two_entries "pages" None three_pages).2 =
          [[OpCacheDelete "pages" "/a"; OpStoreDelete "pages" "/a"]]) as Hpending
    by (vm_compute; reflexivity).
  rewrite Hpending in Hpromise. by apply list_elem_of_singleton in Hpromise as ->.
Defined.

Lemma expireEntries_settled_witness :
  response_at "pages" "/a"
    (settle [OpCacheDelete "pages" "/a"; OpStoreDelete "pages" "/a"]
       (expireEntries two_entries "pages" None three_pages).2) = None ∧
  timestamp_at "pages" "/a"
    (settle [OpCacheDelete "pages" "/a"; OpStoreDelete "pages" "/a"]
       (expireEntries two_entries "pages" None three_pages).2) = None.
Proof.
  apply (expireEntries_settled two_entries "pages" None three_pages ["/a"]
           (expireEntries two_entries "pages" None three_pages).2
           [OpCacheDelete "pages" "/a"; OpStoreDelete "pages" "/a"]).
  - vm_compute. reflexivity.
  - intros promise op Hpromise Hop.
    assert (pending (expireEntries two_entries "pages" None three_pages).2 =
            [[OpCacheDelete "pages" "/a"; OpStoreDelete "pages" "/a"]]) as Hpending
      by (vm_compute; reflexivity).
    rewrite Hpending in Hpromise.
    by apply list_elem_of_singleton in Hpromise as ->.
  - by left.
Defined.

End SettlingExamples.

Section NewestEntry.
Import CacheExpiration.




(** Storing [/a] again makes it the newest: it stays, and [/b] goes. *)
Example restore_oldest_page :
  let w' := (cacheDidUpdate two_entries "pages" (page "/a") (Some 4000%Z)
               three_pages).2 in
  let final := settle (concat (pending w')) w' in
  caches final = {[ "pages" := {[ "/a" := page "/a"; "/c" := page "/c" ]} ]} ∧
  databases final = {[ idbId "pages" := {[ "/a" := 4000%Z; "/c" := 3000%Z ]} ]}.
Proof. split; vm_compute; reflexivity. Qed.

(** A deletion of [/a] that an earlier expiry left in flight takes the
    entry away again when it runs after [/a] has been stored anew. *)
Example stale_deletion_takes_restored_page :
  let w := set_pending (λ _, [[OpCacheDelete "pages" "/a"; OpStoreDelete "pages" "/a"]])
             three_pages in
  let w' := (cacheDidUpdate two_entries "pages" (page "/a") (Some 4000%Z) w).2 in
  let final := settle (concat (pending w')) w' in
  timestamp_at "pages" "/a" final = None ∧ response_at "pages" "/a" final = None.
Proof. split; vm_compute; reflexivity. Qed.

End NewestEntry.

(** * Properties of the command line *)

Section CommandLine.
Import Cli.

(** X19. Without a command and with a help file that can be read, [argv] exits
    with 0 exactly when a help or a version flag is set; it prints the help
    text when a help flag is set and when no flag is, and after it the
    version when a version flag is set. *)
Theorem argv_flags env cliArgs helpText printed :
  positional cliArgs = [] →
  help_file env = Normal helpText →
  let asked_help := truthy (h cliArgs) || truthy (help cliArgs) in
  let asked_version := truthy (v cliArgs) || truthy (version cliArgs) in
  argv env cliArgs printed =
    (Normal (if asked_help || asked_version then 0 else 1)%Z,
     printed ++
     (if asked_help || negb asked_version then [Info helpText] else []) ++
     (if asked_version then [Info (pkg_version env)] else [])).
Proof.
  intros Hnone Hfile asked_help asked_version.
  unfold argv, handleFlag, printHelpText. rewrite Hnone, Hfile.
  fold asked_help asked_version.
  destruct asked_help, asked_version; cbn; by rewrite <- ?app_assoc, ?app_nil_r.
Qed.

Lemma argv_flags_witness :
  let asked_help := truthy (h (asking_help [])) || truthy (help (asking_help [])) in
  let asked_version :=
    truthy (v (asking_help [])) || truthy (version (asking_help [])) in
  argv packaged (asking_help []) [] =
    (Normal (if asked_help || asked_version then 0 else 1)%Z,
     [] ++
     (if asked_help || negb asked_version then [Info "usage"] else []) ++
     (if asked_version then [Info (pkg_version packaged)] else [])).
Proof.
  apply (argv_flags packaged (asking_help []) "usage" []); reflexivity.
Defined.

(** X20. With a command, [argv] looks at no flag and prints no help: it exits
    with 0 exactly when the command is [generate-sw] and the generation
    succeeds, printing nothing itself, and for every other command it
    prints one error and exits with 1. *)
Theorem argv_command env cliArgs command args printed :
  positional cliArgs = command :: args →
  argv env cliArgs printed =
    if String.eqb command "generate-sw" then
      (Normal (match generateSW env with Resolves => 0 | Rejects => 1 end)%Z, printed)
    else
      (Normal 1%Z,
       printed ++
       [Error (if String.eqb command "build-file-manifest"
               then "TODO: Implement."
               else "Invlaid command given '" +:+ command +:+ "'")]).
Proof.
  intros Hcommand. unfold argv, handleCommand. rewrite Hcommand.
  destruct (String.eqb command "generate-sw").
  - by destruct (generateSW env).
  - by destruct (String.eqb command "build-file-manifest").
Qed.

Lemma argv_command_witness :
  argv packaged (asking_help ["build"; "now"]) [] =
    if String.eqb "build" "generate-sw" then
      (Normal (match generateSW packaged with Resolves => 0 | Rejects => 1 end)%Z, [])
    else
      (Normal 1%Z,
       [] ++
       [Error (if String.eqb "build" "build-file-manifest"
               then "TODO: Implement."
               else "Invlaid command given '" +:+ "build" +:+ "'")]).
Proof.
  apply (argv_command packaged (asking_help ["build"; "now"]) "build" ["now"] []).
  reflexivity.
Defined.

End CommandLine.

(** * Properties of the file manifest writer *)

Section Manifest.
Import WriteFileManifest.

Lemma check_entries_valid env entries :
  check_entries env entries =
  if forallb valid_entry entries then None
  else Some (errors env "invalid-manifest-entries").
Proof.
  induction entries as [|entry entries IH]; [done|].
  cbn [check_entries forallb]. rewrite IH.
  destruct entry as [| |b|n|s|url|items]; cbn; try done.
  by destruct (truthy url).
Qed.

(** X21. [writeFileManifest] checks its arguments before it touches the file
    system: a path that is not a non-empty string is rejected as
    [invalid-manifest-path], and after that entries that are not an array,
    or an array with an item that is neither a string nor an object with a
    truthy [url], as [invalid-manifest-entries]; nothing is created, read
    or written in either case. *)
Theorem writeFileManifest_validates env manifestFilePath manifestEntries :
  let valid_path := match manifestFilePath with
                    | VString path => negb (String.eqb path "")
                    | _ => false
                    end in
  let valid_entries := match manifestEntries with
                       | VArray entries => forallb valid_entry entries
                       | _ => false
                       end in
  (valid_path = false →
   writeFileManifest env manifestFilePath manifestEntries =
     ([], Some (errors env "invalid-manifest-path"))) ∧
  (valid_path = true → valid_entries = false →
   writeFileManifest env manifestFilePath manifestEntries =
     ([], Some (errors env "invalid-manifest-entries"))) ∧
  (valid_path = true → valid_entries = true →
   ∃ path rest,
     manifestFilePath = VString path ∧
     (writeFileManifest env manifestFilePath manifestEntries).1 =
       Mkdirp (dirname env path) :: rest).
Proof.
  intros valid_path valid_entries. unfold writeFileManifest.
  destruct manifestFilePath as [| |b|n|path|url|items]; cbn in valid_path;
    subst valid_path; try (repeat split; done).
  cbn [truthy]. destruct (path =? "")%string; cbn [negb]; [repeat split; done|].
  split; [done|].
  destruct manifestEntries as [| |b|n|s|url|entries]; cbn in valid_entries;
    subst valid_entries; try (repeat split; done).
  rewrite check_entries_valid.
  destruct (forallb valid_entry entries); [|repeat split; done].
  split; [done|]. intros _ _. exists path.
  destruct (mkdirp env (dirname env path)); [by eexists|].
  destruct (readFile env (templatePath env)) as [templateString|]; [|by eexists].
  destruct (template env templateString entries); by eexists.
Qed.

Lemma writeFileManifest_validates_witness :
  writeFileManifest working (VString "") (VArray []) =
    ([], Some (errors working "invalid-manifest-path")) ∧
  writeFileManifest working (VString "build/manifest.js")
      (VArray [VString "/a"; VObject (VString "")]) =
    ([], Some (errors working "invalid-manifest-entries")) ∧
  ∃ path rest,
    VString "build/manifest.js" = VString path ∧
    (writeFileManifest working (VString "build/manifest.js")
       (VArray [VString ""; VObject (VString "/a")])).1 =
      Mkdirp (dirname working path) :: rest.
Proof.
  split; [|split].
  - apply (proj1 (writeFileManifest_validates working (VString "") (VArray []))).
    reflexivity.
  - apply (proj1 (proj2 (writeFileManifest_validates working
                           (VString "build/manifest.js")
                           (VArray [VString "/a"; VObject (VString "")]))));
      reflexivity.
  - apply (proj2 (proj2 (writeFileManifest_validates working
                           (VString "build/manifest.js")
                           (VArray [VString ""; VObject (VString "/a")]))));
      reflexivity.
Defined.

(** X22. For valid arguments the promise of [writeFileManifest] resolves
    exactly when making the directory, reading the template, populating it
    with the entries and writing the file all succeed; and whenever a file
    is written, it is the manifest file, its content is the template
    populated with the entries, and the directory was made first. *)
Theorem writeFileManifest_writes env path entries :
  path ≠ "" →
  forallb valid_entry entries = true →
  let result := writeFileManifest env (VString path) (VArray entries) in
  (result.2 = None ↔
   mkdirp env (dirname env path) = None ∧
   ∃ templateString populated,
     readFile env (templatePath env) = inl templateString ∧
     template env templateString entries = inl populated ∧
     writeFile env path populated = None) ∧
  (∀ written content,
     WriteFile written content ∈ result.1 →
     written = path ∧
     mkdirp env (dirname env path) = None ∧
     ∃ templateString,
       readFile env (templatePath env) = inl templateString ∧
       template env templateString entries = inl content ∧
       result.1 = [Mkdirp (dirname env path); ReadFile (templatePath env);
                   WriteFile path content]).
Proof.
  intros Hpath Hentries result. subst result. unfold writeFileManifest.
  cbn [truthy]. apply String.eqb_neq in Hpath. rewrite Hpath. cbn [negb].
  rewrite check_entries_valid, Hentries.
  destruct (mkdirp env (dirname env path)) as [failure|] eqn:Hmkdir.
  { split; [split; [done|by intros [? _]]|].
    intros written content Hin. cbn in Hin.
    by apply list_elem_of_singleton in Hin. }
  destruct (readFile env (templatePath env)) as [templateString|failure] eqn:Hread.
  2: { split; [split; [done|by intros (_ & ? & ? & ? & _)]|].
       intros written content Hin. cbn in Hin.
       repeat (apply elem_of_cons in Hin as [Hin|Hin]; [done|]).
       by apply elem_of_nil in Hin. }
  destruct (template env templateString entries) as [populated|failure] eqn:Hrender.
  2: { split.
       - split; [done|]. intros (_ & ? & ? & [= <-] & Hrender' & _). congruence.
       - intros written content Hin. cbn in Hin.
         repeat (apply elem_of_cons in Hin as [Hin|Hin]; [done|]).
         by apply elem_of_nil in Hin. }
  cbn [fst snd]. split.
  - destruct (writeFile env path populated) as [failure|] eqn:Hwrite.
    + split; [done|]. intros (_ & ? & ? & [= <-] & Hrender' & Hwrite').
      rewrite Hrender in Hrender'. injection Hrender' as <-. congruence.
    + split; [|done]. intros _. split; [done|]. by exists templateString, populated.
  - intros written content Hin.
    repeat (apply elem_of_cons in Hin as [Hin|Hin]; [try done|]).
    + injection Hin as -> ->. split; [done|]. split; [done|].
      by exists templateString.
    + by apply elem_of_nil in Hin.
Qed.

Lemma writeFileManifest_writes_witness :
  let result := writeFileManifest working (VString "build/manifest.js")
                  (VArray [VString "/a"; VObject (VString "/b")]) in
  (result.2 = None ↔
   mkdirp working (dirname working "build/manifest.js") = None ∧
   ∃ templateString populated,
     readFile working (templatePath working) = inl templateString ∧
     template working templateString [VString "/a"; VObject (VString "/b")] =
       inl populated ∧
     writeFile working "build/manifest.js" populated = None) ∧
  (∀ written content,
     WriteFile written content ∈ result.1 →
     written = "build/manifest.js" ∧
     mkdirp working (dirname working "build/manifest.js") = None ∧
     ∃ templateString,
       readFile working (templatePath working) = inl templateString ∧
       template working templateString [VString "/a"; VObject (VString "/b")] =
         inl content ∧
       result.1 = [Mkdirp (dirname working "build/manifest.js");
                   ReadFile (templatePath working);
                   WriteFile "build/manifest.js" content]).
Proof.
  apply (writeFileManifest_writes working "build/manifest.js"
           [VString "/a"; VObject (VString "/b")]); [done|reflexivity].
Defined.

End Manifest.

(** * The options of a constructed expiration plugin *)

Section PluginOptions.
Import CacheExpiration.

(** X10. The constructor of the expiration plugin keeps the two options as
    they are given. A constructed plugin has a limit, and each limit it has
    is a number other than 0; and a plugin is constructed whenever each
    option is falsy or a number other than 0 and one of them is such a
    number. *)
Theorem constructor_accepts maxEntries maxAgeSeconds :
  (∀ this,
     constructor maxEntries maxAgeSeconds = Normal this →
     CacheExpiration.maxEntries this = maxEntries ∧
     CacheExpiration.maxAgeSeconds this = maxAgeSeconds ∧
     (limit_of maxEntries ≠ None ∨ limit_of maxAgeSeconds ≠ None) ∧
     (∀ entries, limit_of maxEntries = Some entries →
                 maxEntries = JSNumber entries ∧ entries ≠ 0%Z) ∧
     (∀ seconds, limit_of maxAgeSeconds = Some seconds →
                 maxAgeSeconds = JSNumber seconds ∧ seconds ≠ 0%Z)) ∧
  ((truthy maxEntries = false ∨ ∃ entries, maxEntries = JSNumber entries) →
   (truthy maxAgeSeconds = false ∨ ∃ seconds, maxAgeSeconds = JSNumber seconds) →
   truthy maxEntries || truthy maxAgeSeconds = true →
   ∃ this, constructor maxEntries maxAgeSeconds = Normal this).
Proof.
  split.
  - intros this. unfold constructor, limit_of.
    destruct maxEntries as [| |[|]|n|], maxAgeSeconds as [| |[|]|m|]; cbn;
      repeat match goal with
             | |- context [Z.eqb ?x 0] => destruct (Z.eqb_spec x 0)
             end; cbn; try done; intros [= <-]; cbn;
      (split; [done|]); (split; [done|]);
      (split; [by (left + right)|]);
      split; intros ? [= <-]; done.
  - intros Hentries Hseconds Hone. unfold constructor. rewrite Hone. cbn [negb].
    assert (∀ value,
              truthy value = false ∨ (∃ n, value = JSNumber n) →
              truthy value && negb (String.eqb (typeof value) "number") = false)
      as Hnumber.
    { intros value [Hfalsy|[n ->]]; [by rewrite Hfalsy|].
      cbn. by rewrite andb_false_r. }
    rewrite !Hnumber by done. by eexists.
Qed.

Lemma constructor_accepts_witness :
  ∃ this, constructor (JSNumber 2) JSUndefined = Normal this.
Proof.
  apply (proj2 (constructor_accepts (JSNumber 2) JSUndefined)).
  - right. by exists 2%Z.
  - by left.
  - reflexivity.
Defined.

End PluginOptions.
